(** * BamMultiMerger_p.h: the merge core of BamMultiReader

    A shallow embedding of [src/api/internal/BamMultiMerger_p.h]: the
    [IBamMultiMerger] interface and its three implementations,
    [PositionMultiMerger] (a [std::multimap] ordered by
    [SortLessThanPosition]), [ReadNameMultiMerger] (a [std::multimap] on
    [std::string] keys under [std::less]) and [UnsortedMultiMerger] (a
    [std::vector]).

    Conventions of the embedding.
    - A [std::multimap<K,V,Compare>] is the list of its elements in iteration
      order; [insert] places the new element at the upper bound of its key.
    - A [std::vector] is the list of its elements, front first.
    - Every member function that mutates [m_data] takes the container and
      returns the new one.  [First] and [TakeFirst] dereference [begin()] /
      [front()], which is undefined on an empty container: they return
      [None] there.
    - [First] returns a [const ReaderAlignment&]: a [Reference], which tells
      a reference to an entry of [m_data] from a reference to an object that
      is destroyed when [First] returns.
    - A [BamReader*] is an [option BamReader], [None] being the null pointer.
    - [int] keys are compared only, never computed with: they are [Z].
    - [Size] returns the number of elements of [m_data] as an [int]; a merger
      holds one entry per open reader, and the count is taken as it is. *)

From Stdlib Require Import String Ascii ZArith Bool Lia PeanoNat List Sorted Permutation.
Import ListNotations.

Set Implicit Arguments.

(** ** Collaborators declared outside this header *)

(** Modelled from the spec: [api/BamReader.h] is not among the sources.  The
    merger only calls [GetFilename()], the "stable external key carried by the
    source"; [reader_address] stands for the identity of the handle itself,
    which two readers of the same file do not share. *)
Record BamReader : Type := mkBamReader {
  reader_address : nat;
  GetFilename : string
}.

(** Modelled from the spec: [api/BamAlignment.h] is not among the sources.
    The merger reads the fields [RefID], [Position] and [Name] only. *)
Record BamAlignment : Type := mkBamAlignment {
  RefID : Z;
  Position : Z;
  Name : string
}.

(** [typedef std::pair<BamReader*, BamAlignment*> ReaderAlignment;]
    The alignment is dereferenced without a test by the sorted mergers, so it
    is a record, not an option. *)
Definition ReaderAlignment : Type := (option BamReader * BamAlignment)%type.

(** A [const ReaderAlignment&] handed to the caller: [Live entry] refers to
    an object that is alive and holds [entry]; [Dangling] refers to an object
    whose lifetime has ended.  Reading through a dangling reference is
    undefined: [read_reference] is [None] there. *)
Inductive Reference : Type :=
| Live (entry : ReaderAlignment)
| Dangling.

Definition read_reference (r : Reference) : option ReaderAlignment :=
  match r with
  | Live entry => Some entry
  | Dangling => None
  end.

(** ** [std::multimap<K, V, Compare>] *)

Module StdMultimap.
Section Container.
Context {K V : Type}.
Variable comp : K -> K -> bool.

  (** [insert]: the element goes before the first element whose key is
      greater than its own, that is after every element of an equal key. *)
Fixpoint insert (e : K * V) (m : list (K * V)) : list (K * V) :=
    match m with
    | [] => [e]
    | x :: rest =>
        if comp (fst e) (fst x) then e :: m else x :: insert e rest
    end.

Definition clear (m : list (K * V)) : list (K * V) := [].

Definition empty (m : list (K * V)) : bool :=
    match m with [] => true | _ :: _ => false end.

Definition size (m : list (K * V)) : nat := length m.

  (** Iteration order: no element is ordered before one that precedes it. *)
Definition ordered (m : list (K * V)) : Prop :=
    StronglySorted (fun x y => comp (fst y) (fst x) = false) m.
End Container.
End StdMultimap.

(** What a comparator has to satisfy for [std::multimap]. *)
Class StrictWeakOrder {K : Type} (comp : K -> K -> bool) : Prop := {
  swo_irrefl : forall a, comp a a = false;
  swo_trans : forall a b c, comp a b = true -> comp b c = true -> comp a c = true;
  swo_incomp_trans : forall a b c,
    comp a b = false -> comp b a = false ->
    comp b c = false -> comp c b = false ->
    comp a c = false /\ comp c a = false
}.

(** ** The loop shared by the three [Remove] member functions

    [for ( ; dataIter != dataEnd; ++dataIter )]: an entry whose reader is
    null is skipped; the first entry whose reader has the file name looked
    for is erased and the function returns. *)
Section RemoveLoop.
Context {E : Type}.
Variable entryReader : E -> option BamReader.

Fixpoint erase_first_match (filenameToRemove : string) (data : list E) : list E :=
    match data with
    | [] => []
    | entry :: rest =>
        match entryReader entry with
        | None => entry :: erase_first_match filenameToRemove rest
        | Some r =>
            if String.eqb (GetFilename r) filenameToRemove
            then rest
            else entry :: erase_first_match filenameToRemove rest
        end
    end.

  (** The test of the loop body, as a predicate on an entry. *)
Definition matches (filenameToRemove : string) (entry : E) : bool :=
    match entryReader entry with
    | None => false
    | Some r => String.eqb (GetFilename r) filenameToRemove
    end.
End RemoveLoop.

(** ** PositionMultiMerger *)

Module PositionMultiMerger.
Definition KeyType : Type := (Z * Z)%type.
Definition ValueType : Type := ReaderAlignment.
Definition ElementType : Type := (KeyType * ValueType)%type.

  (** [struct SortLessThanPosition]. *)
Definition SortLessThanPosition (lhs rhs : KeyType) : bool :=
    if (fst lhs =? -1)%Z then false
    else if (fst rhs =? -1)%Z then true
    else if negb (fst lhs =? fst rhs)%Z then (fst lhs <? fst rhs)%Z
    else (snd lhs <? snd rhs)%Z.

Definition ContainerType : Type := list ElementType.

Definition Create : ContainerType := [].

Definition Add (value : ReaderAlignment) (m_data : ContainerType) : ContainerType :=
    let key : KeyType := (RefID (snd value), Position (snd value)) in
    StdMultimap.insert SortLessThanPosition (key, value) m_data.

Definition Clear (m_data : ContainerType) : ContainerType :=
    StdMultimap.clear m_data.

(** [const ElementType& entry = *m_data.begin(); return entry.second;]
    An element of the multimap is a [std::pair<const KeyType, ValueType>],
    not an [ElementType] ([std::pair<KeyType, ValueType>]): the reference
    [entry] is bound to a temporary [ElementType] copied from the element,
    which lives as long as [entry] does, until [First] returns.  The
    reference returned is to the second member of that temporary. *)
Definition First (m_data : ContainerType) : option Reference :=
    match m_data with
    | [] => None
    | element :: _ =>
        let entry : ElementType := (fst element, snd element) in
        Some Dangling
    end.

Definition IsEmpty (m_data : ContainerType) : bool :=
    StdMultimap.empty m_data.

Definition Remove (reader : option BamReader) (m_data : ContainerType) : ContainerType :=
    match reader with
    | None => m_data
    | Some r =>
        erase_first_match (fun e : ElementType => fst (snd e)) (GetFilename r) m_data
    end.

Definition Size (m_data : ContainerType) : Z :=
    Z.of_nat (StdMultimap.size m_data).

Definition TakeFirst (m_data : ContainerType) : option (ReaderAlignment * ContainerType) :=
    match m_data with
    | [] => None
    | first :: rest => Some (snd first, rest)
    end.
End PositionMultiMerger.

(** ** ReadNameMultiMerger *)

Module ReadNameMultiMerger.
Definition KeyType : Type := string.
Definition ValueType : Type := ReaderAlignment.
Definition ElementType : Type := (KeyType * ValueType)%type.

  (** [std::less<std::string>]: [operator<] of [std::string], the
      lexicographic order on the characters' codes, a proper prefix first. *)
Definition Compare (lhs rhs : KeyType) : bool := String.ltb lhs rhs.

Definition ContainerType : Type := list ElementType.

Definition Create : ContainerType := [].

Section WithBuildCharData.
    (** [BamAlignment::BuildCharData()] is declared in [api/BamAlignment.h],
        which is not among the sources: it is a parameter.  It returns the
        flag the member function returns, with the alignment as the call
        leaves it (the call fills in the character data, [Name] among them). *)
Variable BuildCharData : BamAlignment -> bool * BamAlignment.

Definition Add (value : ReaderAlignment) (m_data : ContainerType) : ContainerType :=
      let (ok, al) := BuildCharData (snd value) in
      if ok then
        let key : KeyType := Name al in
        StdMultimap.insert Compare (key, (fst value, al)) m_data
      else m_data.
End WithBuildCharData.

Definition Clear (m_data : ContainerType) : ContainerType :=
    StdMultimap.clear m_data.

(** [const ElementType& entry = *m_data.begin(); return entry.second;]
    An element of the multimap is a [std::pair<const KeyType, ValueType>],
    not an [ElementType] ([std::pair<KeyType, ValueType>]): the reference
    [entry] is bound to a temporary [ElementType] copied from the element,
    which lives as long as [entry] does, until [First] returns.  The
    reference returned is to the second member of that temporary. *)
Definition First (m_data : ContainerType) : option Reference :=
    match m_data with
    | [] => None
    | element :: _ =>
        let entry : ElementType := (fst element, snd element) in
        Some Dangling
    end.

Definition IsEmpty (m_data : ContainerType) : bool :=
    StdMultimap.empty m_data.

Definition Remove (reader : option BamReader) (m_data : ContainerType) : ContainerType :=
    match reader with
    | None => m_data
    | Some r =>
        erase_first_match (fun e : ElementType => fst (snd e)) (GetFilename r) m_data
    end.

Definition Size (m_data : ContainerType) : Z :=
    Z.of_nat (StdMultimap.size m_data).

Definition TakeFirst (m_data : ContainerType) : option (ReaderAlignment * ContainerType) :=
    match m_data with
    | [] => None
    | first :: rest => Some (snd first, rest)
    end.
End ReadNameMultiMerger.

(** ** UnsortedMultiMerger *)

Module UnsortedMultiMerger.
Definition ElementType : Type := ReaderAlignment.
Definition ContainerType : Type := list ElementType.

Definition Create : ContainerType := [].

  (** [m_data.push_back(value)]. *)
Definition Add (value : ReaderAlignment) (m_data : ContainerType) : ContainerType :=
    m_data ++ [value].

  (** [for (size_t i = 0; i < m_data.size(); ++i ) m_data.pop_back();]
      The bound [m_data.size()] is read again at every test.  [m_data.size() - i]
      decreases at every iteration, so [length m_data] iterations of fuel
      are more than the loop takes ([Clear_loop_fuel] below). *)
Fixpoint Clear_loop (fuel i : nat) (m_data : ContainerType) : ContainerType :=
    match fuel with
    | O => m_data
    | S fuel' =>
        if i <? length m_data
        then Clear_loop fuel' (S i) (removelast m_data)
        else m_data
    end.

Definition Clear (m_data : ContainerType) : ContainerType :=
    Clear_loop (length m_data) 0 m_data.

(** [return m_data.front();]: a reference to the first element of the
    vector itself. *)
Definition First (m_data : ContainerType) : option Reference :=
    match m_data with
    | [] => None
    | front :: _ => Some (Live front)
    end.

Definition IsEmpty (m_data : ContainerType) : bool :=
    match m_data with [] => true | _ :: _ => false end.

Definition Remove (reader : option BamReader) (m_data : ContainerType) : ContainerType :=
    match reader with
    | None => m_data
    | Some r =>
        erase_first_match (fun e : ElementType => fst e) (GetFilename r) m_data
    end.

Definition Size (m_data : ContainerType) : Z :=
    Z.of_nat (length m_data).

Definition TakeFirst (m_data : ContainerType) : option (ReaderAlignment * ContainerType) :=
    match m_data with
    | [] => None
    | first :: rest => Some (first, rest)
    end.
End UnsortedMultiMerger.


(** ** The interface [IBamMultiMerger]

    The seven virtual member functions, with the constructor.  [buffered] is
    not a member function: it reads the entries a merger holds, in the
    iteration order of [m_data], and is used in statements only. *)
Record IBamMultiMerger : Type := {
  state : Type;
  Create : state;
  Add : ReaderAlignment -> state -> state;
  Clear : state -> state;
  First : state -> option Reference;
  IsEmpty : state -> bool;
  Remove : option BamReader -> state -> state;
  Size : state -> Z;
  TakeFirst : state -> option (ReaderAlignment * state);
  buffered : state -> list ReaderAlignment
}.

Definition PositionMerger : IBamMultiMerger := {|
  state := PositionMultiMerger.ContainerType;
  Create := PositionMultiMerger.Create;
  Add := PositionMultiMerger.Add;
  Clear := PositionMultiMerger.Clear;
  First := PositionMultiMerger.First;
  IsEmpty := PositionMultiMerger.IsEmpty;
  Remove := PositionMultiMerger.Remove;
  Size := PositionMultiMerger.Size;
  TakeFirst := PositionMultiMerger.TakeFirst;
  buffered := map snd
|}.

Definition ReadNameMerger (BuildCharData : BamAlignment -> bool * BamAlignment)
  : IBamMultiMerger := {|
  state := ReadNameMultiMerger.ContainerType;
  Create := ReadNameMultiMerger.Create;
  Add := ReadNameMultiMerger.Add BuildCharData;
  Clear := ReadNameMultiMerger.Clear;
  First := ReadNameMultiMerger.First;
  IsEmpty := ReadNameMultiMerger.IsEmpty;
  Remove := ReadNameMultiMerger.Remove;
  Size := ReadNameMultiMerger.Size;
  TakeFirst := ReadNameMultiMerger.TakeFirst;
  buffered := map snd
|}.

Definition UnsortedMerger : IBamMultiMerger := {|
  state := UnsortedMultiMerger.ContainerType;
  Create := UnsortedMultiMerger.Create;
  Add := UnsortedMultiMerger.Add;
  Clear := UnsortedMultiMerger.Clear;
  First := UnsortedMultiMerger.First;
  IsEmpty := UnsortedMultiMerger.IsEmpty;
  Remove := UnsortedMultiMerger.Remove;
  Size := UnsortedMultiMerger.Size;
  TakeFirst := UnsortedMultiMerger.TakeFirst;
  buffered := fun m_data => m_data
|}.

(** The three ordering policies a caller chooses from at construction. *)
Inductive Variant : Type := PositionOrder | NameOrder | InsertionOrder.

Definition merger (BuildCharData : BamAlignment -> bool * BamAlignment)
  (v : Variant) : IBamMultiMerger :=
  match v with
  | PositionOrder => PositionMerger
  | NameOrder => ReadNameMerger BuildCharData
  | InsertionOrder => UnsortedMerger
  end.

(** ** Calls through the interface

    A caller sees a merger through its member functions only.  [call] is one
    call, with what it returns and the merger it leaves; [None] is a call the
    header leaves undefined ([First] or [TakeFirst] of an empty merger). *)
Inductive Call : Type :=
| CallAdd (value : ReaderAlignment)
| CallClear
| CallFirst
| CallIsEmpty
| CallRemove (reader : option BamReader)
| CallSize
| CallTakeFirst.

Inductive Returned : Type :=
| RetVoid
| RetEntry (entry : ReaderAlignment)
| RetReference (r : Reference)
| RetBool (b : bool)
| RetInt (n : Z).

Definition call (I : IBamMultiMerger) (c : Call) (m : state I)
  : option (Returned * state I) :=
  match c with
  | CallAdd value => Some (RetVoid, Add I value m)
  | CallClear => Some (RetVoid, Clear I m)
  | CallFirst =>
      match First I m with
      | Some r => Some (RetReference r, m)
      | None => None
      end
  | CallIsEmpty => Some (RetBool (IsEmpty I m), m)
  | CallRemove reader => Some (RetVoid, Remove I reader m)
  | CallSize => Some (RetInt (Size I m), m)
  | CallTakeFirst =>
      match TakeFirst I m with
      | Some (entry, m') => Some (RetEntry entry, m')
      | None => None
      end
  end.

Fixpoint run (I : IBamMultiMerger) (cs : list Call) (m : state I)
  : option (list Returned * state I) :=
  match cs with
  | [] => Some ([], m)
  | c :: cs' =>
      match call I c m with
      | None => None
      | Some (r, m') =>
          match run I cs' m' with
          | None => None
          | Some (rs, m'') => Some (r :: rs, m'')
          end
      end
  end.

(** Inserting a sequence of entries, first to last. *)
Definition add_all (I : IBamMultiMerger) (values : list ReaderAlignment)
  (m : state I) : state I :=
  fold_left (fun acc value => Add I value acc) values m.

(** The driver's loop [while ( !IsEmpty() ) out.push_back( TakeFirst() );]:
    the entries taken, in order, and the merger left.  Every iteration
    removes an entry, so [Size] iterations of fuel are enough ([drain_all]). *)
Fixpoint drain (I : IBamMultiMerger) (fuel : nat) (m : state I)
  : list ReaderAlignment * state I :=
  match fuel with
  | O => ([], m)
  | S fuel' =>
      if IsEmpty I m then ([], m)
      else match TakeFirst I m with
           | None => ([], m)
           | Some (entry, m') =>
               let (taken, left) := drain I fuel' m' in (entry :: taken, left)
           end
  end.

Definition drain_all (I : IBamMultiMerger) (m : state I)
  : list ReaderAlignment * state I :=
  drain I (Z.to_nat (Size I m)) m.

(** The sort key [PositionMultiMerger::Add] computes from an entry. *)
Definition position_key (value : ReaderAlignment) : Z * Z :=
  (RefID (snd value), Position (snd value)).

(** ** Counting the calls of a run

    [inserted], [extracted] and [removed] count, over the calls of [cs] made
    from [m] on, the inserts that buffered their entry, the [TakeFirst]
    calls, and the [Remove] calls that found an entry to erase. *)
Definition insert_succeeds (BuildCharData : BamAlignment -> bool * BamAlignment)
  (v : Variant) (value : ReaderAlignment) : bool :=
  match v with
  | NameOrder => fst (BuildCharData (snd value))
  | PositionOrder | InsertionOrder => true
  end.

Definition removal_succeeds (I : IBamMultiMerger) (reader : option BamReader)
  (m : state I) : bool :=
  match reader with
  | None => false
  | Some r => existsb (matches (fun e : ReaderAlignment => fst e) (GetFilename r)) (buffered I m)
  end.

Section Counting.
Variable BuildCharData : BamAlignment -> bool * BamAlignment.
Variable v : Variant.
Let I := merger BuildCharData v.

Definition is_insert (c : Call) (m : state I) : bool :=
  match c with
  | CallAdd value => insert_succeeds BuildCharData v value
  | _ => false
  end.

Definition is_extraction (c : Call) (m : state I) : bool :=
  match c with
  | CallTakeFirst => negb (IsEmpty I m)
  | _ => false
  end.

Definition is_removal (c : Call) (m : state I) : bool :=
  match c with
  | CallRemove reader => removal_succeeds I reader m
  | _ => false
  end.

Fixpoint count_calls (counted : Call -> state I -> bool) (cs : list Call)
  (m : state I) : nat :=
  match cs with
  | [] => 0
  | c :: cs' =>
      match call I c m with
      | None => 0
      | Some (_, m') =>
          (if counted c m then 1 else 0) + count_calls counted cs' m'
      end
  end.

Definition inserted := count_calls is_insert.
Definition extracted := count_calls is_extraction.
Definition removed := count_calls is_removal.
End Counting.

Definition is_clear (c : Call) : bool :=
  match c with CallClear => true | _ => false end.

(** Two keys neither of which is ordered before the other. *)
Definition incomparable {K : Type} (comp : K -> K -> bool) (a b : K) : Prop :=
  comp a b = false /\ comp b a = false.

(** ** Vocabulary of the statements *)

(** The reference [First] returns when [first] is the first buffered entry,
    by variant: to the entry in the vector (insertion order), to a temporary
    that is gone (sorted variants). *)
Definition First_reference (v : Variant) (first : ReaderAlignment) : Reference :=
  match v with
  | InsertionOrder => Live first
  | PositionOrder | NameOrder => Dangling
  end.

(** The unmapped-last order on (RefID, Position) keys, written out: [a] is
    not after [b] when [b] is unmapped, or both are mapped and [a] has the
    lesser RefID, or the same RefID and a Position that is not greater. *)
Definition position_le (a b : Z * Z) : Prop :=
  fst b = (-1)%Z \/
  (fst a <> (-1)%Z /\ fst b <> (-1)%Z /\
   (fst a < fst b \/ (fst a = fst b /\ snd a <= snd b))%Z).

Import PositionMultiMerger(SortLessThanPosition).

(** The elements are in the comparator's order and each is filed under the
    key of the entry it holds. *)
Definition well_keyed {K : Type} (comp : K -> K -> bool)
  (key : ReaderAlignment -> K) (m : list (K * ReaderAlignment)) : Prop :=
  StdMultimap.ordered comp m /\ Forall (fun e => fst e = key (snd e)) m.

(** The sort key [ReadNameMultiMerger::Add] files an entry under, once its
    character data is built. *)
Definition name_key (value : ReaderAlignment) : string := Name (snd value).

(** What holds of the merger after any calls, by variant. *)
Definition invariant (BuildCharData : BamAlignment -> bool * BamAlignment)
  (v : Variant) : state (merger BuildCharData v) -> Prop :=
  match v with
  | PositionOrder => well_keyed SortLessThanPosition position_key
  | NameOrder => well_keyed ReadNameMultiMerger.Compare name_key
  | InsertionOrder => fun _ => True
  end.

(** The entries a name-ordered merger buffers for a sequence of inserts:
    those whose character data could be built, as [BuildCharData] left them. *)
Definition materialized (BuildCharData : BamAlignment -> bool * BamAlignment)
  (values : list ReaderAlignment) : list ReaderAlignment :=
  flat_map (fun value : ReaderAlignment =>
              let (ok, al) := BuildCharData (snd value) in
              if ok then [(fst value, al)] else []) values.

(** [l'] is [l] with one element taken out and the others in place. *)
Definition one_erased {A : Type} (l l' : list A) : Prop :=
  exists before x after, l = before ++ x :: after /\ l' = before ++ after.

(** The same of two containers of a variant, elements with their keys. *)
Definition container_one_erased
  (BuildCharData : BamAlignment -> bool * BamAlignment) (v : Variant)
  : state (merger BuildCharData v) -> state (merger BuildCharData v) -> Prop :=
  match v with
  | PositionOrder => @one_erased PositionMultiMerger.ElementType
  | NameOrder => @one_erased ReadNameMultiMerger.ElementType
  | InsertionOrder => @one_erased UnsortedMultiMerger.ElementType
  end.

(** Size accounting over every sequence of calls, [Clear] among them: after
    the calls of [cs] on a new merger of variant [v], the size is the inserts
    that buffered their entry less the extractions and the removals that
    erased one, and [IsEmpty] is [Size = 0]. *)
Definition size_accounting (BuildCharData : BamAlignment -> bool * BamAlignment)
  (v : Variant) : Prop :=
  let I := merger BuildCharData v in
  forall (cs : list Call) (rs : list Returned) (m : state I),
    run I cs (Create I) = Some (rs, m) ->
    Size I m = (Z.of_nat (inserted BuildCharData v cs (Create I))
                - Z.of_nat (extracted BuildCharData v cs (Create I))
                - Z.of_nat (removed BuildCharData v cs (Create I)))%Z /\
    (IsEmpty I m = true <-> Size I m = 0%Z).

(** [l] is [h] with some elements left out, the others in order. *)
Inductive subseq {A : Type} : list A -> list A -> Prop :=
| subseq_nil : subseq [] []
| subseq_skip (x : A) (l h : list A) : subseq l h -> subseq l (x :: h)
| subseq_keep (x : A) (l h : list A) : subseq l h -> subseq (x :: l) (x :: h).

(** The entries the calls of [cs] hand to [Add], in the order of the calls. *)
Definition added (cs : list Call) : list ReaderAlignment :=
  flat_map (fun c => match c with CallAdd value => [value] | _ => [] end) cs.

(** What makes [first] the least buffered entry, by variant: no buffered
    entry has a key ordered before its key (sorted variants); every other
    buffered entry was inserted after it (insertion order). *)
Definition least (BuildCharData : BamAlignment -> bool * BamAlignment)
  (v : Variant) (history : list ReaderAlignment)
  (m : state (merger BuildCharData v)) (first : ReaderAlignment) : Prop :=
  match v with
  | PositionOrder =>
      forall entry, In entry (buffered (merger BuildCharData v) m) ->
        SortLessThanPosition (position_key entry) (position_key first) = false
  | NameOrder =>
      forall entry, In entry (buffered (merger BuildCharData v) m) ->
        String.ltb (Name (snd entry)) (Name (snd first)) = false
  | InsertionOrder =>
      exists earlier later,
        history = earlier ++ first :: later /\
        subseq (tl (buffered (merger BuildCharData v) m)) later
  end.

(** An alignment with an empty name is one whose character data cannot be
    built; any other is left as it is. *)
Definition BuildCharData_nonempty (al : BamAlignment) : bool * BamAlignment :=
  (negb (String.eqb (Name al) EmptyString), al).

(** Alignments whose names are already there: [BuildCharData] has nothing to
    decode and returns true. *)
Definition BuildCharData_ready (al : BamAlignment) : bool * BamAlignment :=
  (true, al).

(** ** Vocabulary of the further properties *)

(** [incomparable], as a test. *)
Definition equivalent_keys {K : Type} (comp : K -> K -> bool) (a b : K) : bool :=
  negb (comp a b) && negb (comp b a).

(** [insert] of a sequence of elements, first to last. *)
Definition insert_all {K V : Type} (comp : K -> K -> bool)
  (elements : list (K * V)) (m : list (K * V)) : list (K * V) :=
  fold_left (fun acc e => StdMultimap.insert comp e acc) elements m.

(** The entry an insert buffers, by sorted variant: the entry itself in
    position order; in name order the entry with its character data built,
    or nothing when they cannot be. *)
Definition Position_files (value : ReaderAlignment) : option ReaderAlignment :=
  Some value.

Definition ReadName_files (BuildCharData : BamAlignment -> bool * BamAlignment)
  (value : ReaderAlignment) : option ReaderAlignment :=
  let (ok, al) := BuildCharData (snd value) in
  if ok then Some (fst value, al) else None.

(** The entries the [TakeFirst] calls of a run returned, in order: [cs] are
    the calls and [rs] what they returned. *)
Fixpoint taken_entries (cs : list Call) (rs : list Returned) : list ReaderAlignment :=
  match cs, rs with
  | CallTakeFirst :: cs', RetEntry entry :: rs' => entry :: taken_entries cs' rs'
  | _ :: cs', _ :: rs' => taken_entries cs' rs'
  | _, _ => []
  end.

(** A run is fed in order when no insert buffers an entry whose key is
    ordered before the key of the entry [TakeFirst] returned last ([last],
    when there is one): what a driver does that refills the merger from
    sorted sources. *)
Fixpoint fed_in_order {K : Type} (comp : K -> K -> bool)
  (key : ReaderAlignment -> K) (files : ReaderAlignment -> option ReaderAlignment)
  (last : option K) (cs : list Call) (rs : list Returned) : bool :=
  match cs, rs with
  | CallAdd value :: cs', _ :: rs' =>
      match last, files value with
      | Some k, Some filed => negb (comp (key filed) k)
      | _, _ => true
      end && fed_in_order comp key files last cs' rs'
  | CallTakeFirst :: cs', RetEntry entry :: rs' =>
      fed_in_order comp key files (Some (key entry)) cs' rs'
  | _ :: cs', _ :: rs' => fed_in_order comp key files last cs' rs'
  | _, _ => true
  end.

(** The two sorted mergers differ in their comparator, their key and what an
    insert buffers: [keyed_call] is a call to either, over these three. *)
Definition keyed_call {K : Type} (comp : K -> K -> bool)
  (key : ReaderAlignment -> K) (files : ReaderAlignment -> option ReaderAlignment)
  (c : Call) (m : list (K * ReaderAlignment))
  : option (Returned * list (K * ReaderAlignment)) :=
  match c with
  | CallAdd value =>
      Some (RetVoid,
            match files value with
            | Some filed => StdMultimap.insert comp (key filed, filed) m
            | None => m
            end)
  | CallClear => Some (RetVoid, [])
  | CallFirst =>
      match m with
      | [] => None
      | _ :: _ => Some (RetReference Dangling, m)
      end
  | CallIsEmpty => Some (RetBool (StdMultimap.empty m), m)
  | CallRemove reader =>
      Some (RetVoid,
            match reader with
            | None => m
            | Some r =>
                erase_first_match (fun e : K * ReaderAlignment => fst (snd e))
                  (GetFilename r) m
            end)
  | CallSize => Some (RetInt (Z.of_nat (length m)), m)
  | CallTakeFirst =>
      match m with
      | [] => None
      | first :: rest => Some (RetEntry (snd first), rest)
      end
  end.

Fixpoint keyed_run {K : Type} (comp : K -> K -> bool)
  (key : ReaderAlignment -> K) (files : ReaderAlignment -> option ReaderAlignment)
  (cs : list Call) (m : list (K * ReaderAlignment))
  : option (list Returned * list (K * ReaderAlignment)) :=
  match cs with
  | [] => Some ([], m)
  | c :: cs' =>
      match keyed_call comp key files c m with
      | None => None
      | Some (r, m') =>
          match keyed_run comp key files cs' m' with
          | None => None
          | Some (rs, m'') => Some (r :: rs, m'')
          end
      end
  end.

(** No buffered element is ordered before the key taken last. *)
Definition not_before {K : Type} (comp : K -> K -> bool) (last : option K)
  (m : list (K * ReaderAlignment)) : Prop :=
  match last with
  | Some k => Forall (fun e => comp (fst e) k = false) m
  | None => True
  end.

(** The number of buffered entries [Remove] of a reader of file [f] can erase. *)
Definition count_matches (f : string) (entries : list ReaderAlignment) : nat :=
  length (filter (matches (fun e : ReaderAlignment => fst e) f) entries).

(** * Properties *)

(** ** The comparators *)

Ltac slp_cases :=
  unfold incomparable, SortLessThanPosition in *; simpl in *;
  repeat match goal with
         | |- context [Z.eqb ?x ?y] => destruct (Z.eqb_spec x y)
         | H : context [Z.eqb ?x ?y] |- _ => destruct (Z.eqb_spec x y)
         | |- context [Z.ltb ?x ?y] => destruct (Z.ltb_spec x y)
         | H : context [Z.ltb ?x ?y] |- _ => destruct (Z.ltb_spec x y)
         end;
  simpl in *; try congruence; try lia.

Lemma SortLessThanPosition_irrefl (a : Z * Z) : SortLessThanPosition a a = false.
Proof. destruct a; slp_cases. Qed.

Lemma SortLessThanPosition_asym (a b : Z * Z) :
  SortLessThanPosition a b = true -> SortLessThanPosition b a = false.
Proof. destruct a, b; intros H; slp_cases. Qed.

Lemma SortLessThanPosition_trans (a b c : Z * Z) :
  SortLessThanPosition a b = true -> SortLessThanPosition b c = true ->
  SortLessThanPosition a c = true.
Proof. destruct a, b, c; intros H1 H2; slp_cases. Qed.

Lemma SortLessThanPosition_incomparable_iff (a b : Z * Z) :
  incomparable SortLessThanPosition a b <->
  (fst a = (-1)%Z /\ fst b = (-1)%Z) \/ a = b.
Proof.
  destruct a as [ra pa], b as [rb pb]; split.
  - intros [H1 H2]; slp_cases; try (right; f_equal; lia); left; lia.
  - intros [[H1 H2] | H]; [ | inversion H; subst ]; split; slp_cases.
Qed.

#[export] Instance SortLessThanPosition_swo : StrictWeakOrder SortLessThanPosition.
Proof.
  split.
  - apply SortLessThanPosition_irrefl.
  - apply SortLessThanPosition_trans.
  - intros a b c H1 H2 H3 H4.
    assert (Hab : incomparable SortLessThanPosition a b) by (split; assumption).
    assert (Hbc : incomparable SortLessThanPosition b c) by (split; assumption).
    apply SortLessThanPosition_incomparable_iff in Hab, Hbc.
    apply SortLessThanPosition_incomparable_iff.
    destruct Hab as [[? ?] | ->], Hbc as [[? ?] | ->]; auto.
Qed.

(** [std::less<std::string>] *)

Lemma ascii_compare_lt_trans (a b c : ascii) :
  Ascii.compare a b = Lt -> Ascii.compare b c = Lt -> Ascii.compare a c = Lt.
Proof.
  unfold Ascii.compare. rewrite !N.compare_lt_iff. apply N.lt_trans.
Qed.

Lemma ascii_compare_refl (a : ascii) : Ascii.compare a a = Eq.
Proof. unfold Ascii.compare. apply N.compare_refl. Qed.

Lemma string_compare_refl (s : string) : String.compare s s = Eq.
Proof. induction s as [ | a s IH ]; simpl; [ | rewrite ascii_compare_refl ]; auto. Qed.

Lemma string_compare_lt_trans (s1 : string) :
  forall s2 s3, String.compare s1 s2 = Lt -> String.compare s2 s3 = Lt ->
                String.compare s1 s3 = Lt.
Proof.
  induction s1 as [ | a s1 IH ]; intros [ | b s2 ] [ | c s3 ]; simpl;
    try congruence.
  destruct (Ascii.compare a b) eqn:Hab; try congruence;
    destruct (Ascii.compare b c) eqn:Hbc; try congruence.
  - apply Ascii.compare_eq_iff in Hab, Hbc. subst.
    rewrite ascii_compare_refl. apply IH.
  - apply Ascii.compare_eq_iff in Hab. subst. now rewrite Hbc.
  - apply Ascii.compare_eq_iff in Hbc. subst. now rewrite Hab.
  - now rewrite (ascii_compare_lt_trans _ _ _ Hab Hbc).
Qed.

Lemma string_ltb_incomparable (s1 s2 : string) :
  String.ltb s1 s2 = false -> String.ltb s2 s1 = false -> s1 = s2.
Proof.
  unfold String.ltb. intros H1 H2. apply String.compare_eq_iff.
  rewrite (String.compare_antisym s2 s1) in H2.
  destruct (String.compare s1 s2); simpl in *; congruence.
Qed.

#[export] Instance ReadName_Compare_swo : StrictWeakOrder ReadNameMultiMerger.Compare.
Proof.
  unfold ReadNameMultiMerger.Compare. split.
  - intros a. unfold String.ltb. now rewrite string_compare_refl.
  - intros a b c. unfold String.ltb.
    destruct (String.compare a b) eqn:Hab; try congruence.
    destruct (String.compare b c) eqn:Hbc; try congruence.
    now rewrite (string_compare_lt_trans _ _ _ Hab Hbc).
  - intros a b c H1 H2 H3 H4.
    rewrite (string_ltb_incomparable _ _ H1 H2), (string_ltb_incomparable _ _ H3 H4).
    unfold String.ltb. now rewrite string_compare_refl.
Qed.

Lemma swo_asym {K : Type} (comp : K -> K -> bool) `{!StrictWeakOrder comp} (a b : K) :
  comp a b = true -> comp b a = false.
Proof.
  intros Hab. destruct (comp b a) eqn:Hba; [ | reflexivity ].
  rewrite <- (swo_irrefl a). symmetry. now apply swo_trans with b.
Qed.

(** ** [std::multimap]: insertion keeps the iteration order sorted *)

Section MultimapFacts.
Context {K V : Type}.
Variable comp : K -> K -> bool.
Context `{!StrictWeakOrder comp}.

Local Abbreviation insert := (StdMultimap.insert comp).
Local Abbreviation ordered := (StdMultimap.ordered comp).

Lemma insert_length (e : K * V) (m : list (K * V)) :
  length (insert e m) = S (length m).
Proof.
  induction m as [ | x rest IH ]; simpl; [ reflexivity | ].
  destruct (comp (fst e) (fst x)); simpl; congruence.
Qed.

Lemma insert_perm (e : K * V) (m : list (K * V)) :
  Permutation (insert e m) (e :: m).
Proof.
  induction m as [ | x rest IH ]; simpl; [ apply Permutation_refl | ].
  destruct (comp (fst e) (fst x)); [ apply Permutation_refl | ].
  rewrite IH. apply perm_swap.
Qed.

Lemma insert_In (e x : K * V) (m : list (K * V)) :
  In x (insert e m) <-> x = e \/ In x m.
Proof.
  split; intros H.
  - apply (Permutation_in _ (insert_perm e m)) in H. destruct H; auto.
  - apply (Permutation_in _ (Permutation_sym (insert_perm e m))).
    destruct H; [ left | right ]; auto.
Qed.

Lemma insert_ordered (e : K * V) (m : list (K * V)) :
  ordered m -> ordered (insert e m).
Proof.
  unfold StdMultimap.ordered.
  induction m as [ | x rest IH ]; intros Hm; simpl.
  - constructor; constructor.
  - apply StronglySorted_inv in Hm. destruct Hm as [Hrest Hx].
    destruct (comp (fst e) (fst x)) eqn:Hex.
    + constructor; [ constructor; assumption | ].
      constructor; [ now apply swo_asym | ].
      rewrite Forall_forall in *. intros y Hy.
      specialize (Hx y Hy).
      destruct (comp (fst y) (fst e)) eqn:Hye; [ | reflexivity ].
      rewrite <- Hx. symmetry. now apply swo_trans with (fst e).
    + constructor; [ auto | ].
      rewrite Forall_forall in *. intros y Hy.
      apply insert_In in Hy. destruct Hy as [-> | Hy]; auto.
Qed.

(** The element [insert] adds goes after every element already there whose
    key is not greater: among equal keys, the oldest comes first. *)
Lemma insert_split (e : K * V) (m : list (K * V)) :
  exists before after,
    m = before ++ after /\ insert e m = before ++ e :: after /\
    Forall (fun x => comp (fst e) (fst x) = false) before /\
    match after with [] => True | y :: _ => comp (fst e) (fst y) = true end.
Proof.
  induction m as [ | x rest IH ]; simpl.
  - exists [], []. repeat split; constructor.
  - destruct (comp (fst e) (fst x)) eqn:Hex.
    + exists [], (x :: rest). repeat split; auto.
    + destruct IH as (before & after & -> & -> & Hb & Ha).
      exists (x :: before), after. repeat split; auto.
Qed.
End MultimapFacts.

(** ** The [Remove] loop *)

Section RemoveLoopFacts.
Context {E : Type}.
Variable entryReader : E -> option BamReader.

Local Abbreviation erase := (erase_first_match entryReader).
Local Abbreviation test := (matches entryReader).

Lemma erase_first_match_none (f : string) (data : list E) :
  existsb (test f) data = false -> erase f data = data.
Proof.
  induction data as [ | entry rest IH ]; simpl; [ reflexivity | ].
  unfold matches at 1. destruct (entryReader entry) as [r | ]; simpl.
  - destruct (String.eqb (GetFilename r) f); simpl; [ discriminate | ].
    intros H. now rewrite IH.
  - intros H. now rewrite IH.
Qed.

Lemma erase_first_match_some (f : string) (data : list E) :
  existsb (test f) data = true ->
  exists before entry after,
    data = before ++ entry :: after /\
    test f entry = true /\
    existsb (test f) before = false /\
    erase f data = before ++ after.
Proof.
  induction data as [ | entry rest IH ]; simpl; [ discriminate | ].
  destruct (test f entry) eqn:Ht; simpl.
  - intros _. exists [], entry, rest. split; [ reflexivity | ].
    split; [ exact Ht | ]. split; [ reflexivity | ].
    unfold matches in Ht.
    destruct (entryReader entry) as [r | ]; [ | discriminate ].
    now rewrite Ht.
  - intros H. destruct (IH H) as (before & x & after & -> & Hx & Hb & He).
    exists (entry :: before), x, after. simpl. rewrite Ht, Hb, He.
    split; [ reflexivity | ]. split; [ exact Hx | ]. split; [ reflexivity | ].
    unfold matches in Ht. destruct (entryReader entry) as [r | ];
      [ rewrite Ht | ]; reflexivity.
Qed.

Lemma erase_first_match_length (f : string) (data : list E) :
  length (erase f data) =
  if existsb (test f) data then pred (length data) else length data.
Proof.
  destruct (existsb (test f) data) eqn:H.
  - destruct (erase_first_match_some _ _ H) as (b & x & a & -> & _ & _ & ->).
    rewrite !length_app. simpl. lia.
  - now rewrite erase_first_match_none.
Qed.

Lemma erase_first_match_sorted (R : E -> E -> Prop) (f : string) (data : list E) :
  StronglySorted R data -> StronglySorted R (erase f data).
Proof.
  induction data as [ | entry rest IH ]; simpl; intros H; [ constructor | ].
  apply StronglySorted_inv in H. destruct H as [Hrest Hentry].
  assert (Hkeep : StronglySorted R (entry :: erase f rest)).
  { constructor; [ auto | ].
    rewrite Forall_forall in *. intros y Hy. apply Hentry.
    clear - Hy. induction rest as [ | z rest IH ]; simpl in *; [ tauto | ].
    destruct (entryReader z) as [r | ].
    - destruct (String.eqb (GetFilename r) f); [ auto | ].
      destruct Hy; auto.
    - destruct Hy; auto. }
  destruct (entryReader entry) as [r | ]; [ | exact Hkeep ].
  destruct (String.eqb (GetFilename r) f); auto.
Qed.

Lemma erase_first_match_Forall (P : E -> Prop) (f : string) (data : list E) :
  Forall P data -> Forall P (erase f data).
Proof.
  induction data as [ | entry rest IH ]; simpl; intros H; [ constructor | ].
  inversion H; subst.
  destruct (entryReader entry) as [r | ]; [ | constructor; auto ].
  destruct (String.eqb (GetFilename r) f); [ | constructor ]; auto.
Qed.
End RemoveLoopFacts.

(** The loop over a multimap's elements and the loop over the entries they
    hold erase the same entry. *)
Lemma erase_first_match_map_snd {K : Type} (f : string)
  (m : list (K * ReaderAlignment)) :
  map snd (erase_first_match (fun e : K * ReaderAlignment => fst (snd e)) f m) =
  erase_first_match (fun e : ReaderAlignment => fst e) f (map snd m).
Proof.
  induction m as [ | [k value] rest IH ]; simpl; [ reflexivity | ].
  destruct (fst value) as [r | ]; simpl; [ | now rewrite IH ].
  destruct (String.eqb (GetFilename r) f); simpl; [ | rewrite IH ]; reflexivity.
Qed.

(** ** [UnsortedMultiMerger::Clear]: what the loop leaves *)

Lemma removelast_firstn_pred {A : Type} (l : list A) :
  removelast l = firstn (pred (length l)) l.
Proof.
  induction l as [ | x l IH ]; [ reflexivity | ].
  destruct l as [ | y l ]; [ reflexivity | ].
  change (removelast (x :: y :: l)) with (x :: removelast (y :: l)).
  rewrite IH. reflexivity.
Qed.

Lemma removelast_length {A : Type} (l : list A) :
  length (removelast l) = pred (length l).
Proof.
  rewrite removelast_firstn_pred, length_firstn. lia.
Qed.

(** Any fuel of at least [length m_data - i] gives the same result: the
    loop has stopped by then, with the first
    [length m_data - (length m_data - i + 1) / 2] elements left. *)
Lemma Clear_loop_fuel (fuel : nat) :
  forall (i : nat) (m_data : UnsortedMultiMerger.ContainerType),
    length m_data - i <= fuel ->
    UnsortedMultiMerger.Clear_loop fuel i m_data =
    firstn (length m_data - (length m_data - i + 1) / 2) m_data.
Proof.
  assert (Hstop : forall (i : nat) (m_data : UnsortedMultiMerger.ContainerType),
             length m_data <= i ->
             m_data = firstn (length m_data - (length m_data - i + 1) / 2) m_data).
  { intros i m_data Hi. replace (length m_data - i) with 0 by lia.
    change ((0 + 1) / 2) with 0. rewrite Nat.sub_0_r. symmetry. apply firstn_all. }
  induction fuel as [ | fuel IH ]; intros i m_data Hfuel;
    cbn [UnsortedMultiMerger.Clear_loop].
  - apply Hstop. lia.
  - destruct (Nat.ltb_spec i (length m_data)) as [Hlt | Hge]; [ | now apply Hstop ].
    rewrite IH by (rewrite removelast_length; lia).
    rewrite removelast_length, removelast_firstn_pred, firstn_firstn.
    f_equal.
    assert (Ha := Nat.div_mod_eq (length m_data - i + 1) 2).
    assert (Hb := Nat.div_mod_eq (pred (length m_data) - S i + 1) 2).
    assert (Hc := Nat.mod_upper_bound (length m_data - i + 1) 2).
    assert (Hd := Nat.mod_upper_bound (pred (length m_data) - S i + 1) 2).
    lia.
Qed.

Lemma Unsorted_Clear_spec (m_data : UnsortedMultiMerger.ContainerType) :
  UnsortedMultiMerger.Clear m_data = firstn (length m_data / 2) m_data.
Proof.
  unfold UnsortedMultiMerger.Clear. rewrite Clear_loop_fuel by lia.
  f_equal. rewrite Nat.sub_0_r.
  assert (H := Nat.div_mod_eq (length m_data) 2).
  assert (H' := Nat.div_mod_eq (length m_data + 1) 2).
  assert (Hm := Nat.mod_upper_bound (length m_data) 2).
  assert (Hm' := Nat.mod_upper_bound (length m_data + 1) 2).
  lia.
Qed.

(** ** The three variants through the interface *)

Lemma Size_length (BuildCharData : BamAlignment -> bool * BamAlignment)
  (v : Variant) (m : state (merger BuildCharData v)) :
  Size (merger BuildCharData v) m =
  Z.of_nat (length (buffered (merger BuildCharData v) m)).
Proof.
  destruct v; simpl;
    unfold PositionMultiMerger.Size, ReadNameMultiMerger.Size,
      UnsortedMultiMerger.Size, StdMultimap.size;
    now rewrite ?length_map.
Qed.

Lemma IsEmpty_buffered (BuildCharData : BamAlignment -> bool * BamAlignment)
  (v : Variant) (m : state (merger BuildCharData v)) :
  IsEmpty (merger BuildCharData v) m = true <->
  buffered (merger BuildCharData v) m = [].
Proof.
  destruct v; simpl; destruct m; simpl; split; intros H; try reflexivity;
    discriminate H.
Qed.

Lemma First_buffered (BuildCharData : BamAlignment -> bool * BamAlignment)
  (v : Variant) (m : state (merger BuildCharData v)) :
  First (merger BuildCharData v) m =
  match buffered (merger BuildCharData v) m with
  | [] => None
  | first :: _ => Some (First_reference v first)
  end.
Proof. destruct v; simpl; destruct m; reflexivity. Qed.

Lemma TakeFirst_buffered (BuildCharData : BamAlignment -> bool * BamAlignment)
  (v : Variant) (m : state (merger BuildCharData v)) :
  match TakeFirst (merger BuildCharData v) m with
  | None => buffered (merger BuildCharData v) m = []
  | Some (entry, m') =>
      buffered (merger BuildCharData v) m =
      entry :: buffered (merger BuildCharData v) m'
  end.
Proof. destruct v; simpl; destruct m; reflexivity. Qed.

Lemma Remove_buffered (BuildCharData : BamAlignment -> bool * BamAlignment)
  (v : Variant) (reader : option BamReader) (m : state (merger BuildCharData v)) :
  buffered (merger BuildCharData v) (Remove (merger BuildCharData v) reader m) =
  match reader with
  | None => buffered (merger BuildCharData v) m
  | Some r =>
      erase_first_match (fun e : ReaderAlignment => fst e) (GetFilename r)
        (buffered (merger BuildCharData v) m)
  end.
Proof.
  destruct v, reader as [r | ]; simpl; try reflexivity;
    apply erase_first_match_map_snd.
Qed.

(** The driver's loop takes every buffered entry, in iteration order, and
    leaves the merger empty: the fuel of [drain_all] is enough. *)
Lemma drain_buffered (BuildCharData : BamAlignment -> bool * BamAlignment)
  (v : Variant) (fuel : nat) :
  forall m : state (merger BuildCharData v),
    length (buffered (merger BuildCharData v) m) <= fuel ->
    fst (drain (merger BuildCharData v) fuel m) = buffered (merger BuildCharData v) m /\
    IsEmpty (merger BuildCharData v) (snd (drain (merger BuildCharData v) fuel m)) = true.
Proof.
  induction fuel as [ | fuel IH ]; intros m Hlen; simpl.
  - assert (H : buffered (merger BuildCharData v) m = [])
      by (destruct (buffered (merger BuildCharData v) m); simpl in *; [ auto | lia ]).
    rewrite H. split; [ reflexivity | now apply IsEmpty_buffered ].
  - destruct (IsEmpty (merger BuildCharData v) m) eqn:He; simpl.
    + split; [ | exact He ]. symmetry. now apply IsEmpty_buffered.
    + assert (Ht := TakeFirst_buffered BuildCharData v m).
      destruct (TakeFirst (merger BuildCharData v) m) as [[entry m'] | ].
      * rewrite Ht in Hlen. simpl in Hlen.
        destruct (IH m' ltac:(lia)) as [IH1 IH2].
        destruct (drain (merger BuildCharData v) fuel m') as [taken left].
        simpl in *. rewrite Ht, IH1. auto.
      * apply IsEmpty_buffered in Ht. congruence.
Qed.

Lemma drain_all_buffered (BuildCharData : BamAlignment -> bool * BamAlignment)
  (v : Variant) (m : state (merger BuildCharData v)) :
  fst (drain_all (merger BuildCharData v) m) = buffered (merger BuildCharData v) m /\
  IsEmpty (merger BuildCharData v) (snd (drain_all (merger BuildCharData v) m)) = true.
Proof.
  unfold drain_all. apply drain_buffered.
  rewrite Size_length, Nat2Z.id. apply le_n.
Qed.

(** ** Sorted mergers: what every container built by the member functions satisfies *)

Section WellKeyed.
Context {K : Type}.
Variable comp : K -> K -> bool.
Context `{!StrictWeakOrder comp}.
Variable key : ReaderAlignment -> K.

Lemma well_keyed_nil : well_keyed comp key [].
Proof. split; constructor. Qed.

Lemma well_keyed_insert (value : ReaderAlignment) (m : list (K * ReaderAlignment)) :
  well_keyed comp key m ->
  well_keyed comp key (StdMultimap.insert comp (key value, value) m).
Proof.
  intros [Ho Hk]. split; [ now apply insert_ordered | ].
  rewrite Forall_forall in *. intros x Hx.
  apply insert_In in Hx. destruct Hx as [-> | Hx]; auto.
Qed.

Lemma well_keyed_erase (f : string) (m : list (K * ReaderAlignment)) :
  well_keyed comp key m ->
  well_keyed comp key
    (erase_first_match (fun e : K * ReaderAlignment => fst (snd e)) f m).
Proof.
  intros [Ho Hk]. split.
  - now apply erase_first_match_sorted.
  - now apply erase_first_match_Forall.
Qed.

Lemma well_keyed_tail (e : K * ReaderAlignment) (m : list (K * ReaderAlignment)) :
  well_keyed comp key (e :: m) -> well_keyed comp key m.
Proof.
  intros [Ho Hk]. apply StronglySorted_inv in Ho. inversion Hk; subst.
  split; tauto.
Qed.

Lemma well_keyed_values (m : list (K * ReaderAlignment)) :
  well_keyed comp key m ->
  StronglySorted (fun x y => comp (key y) (key x) = false) (map snd m).
Proof.
  intros [Ho Hk]. induction m as [ | e m IH ]; simpl; [ constructor | ].
  apply StronglySorted_inv in Ho. destruct Ho as [Ho He].
  inversion Hk as [ | ? ? Hke Hkm ]; subst.
  constructor; [ auto | ].
  rewrite Forall_forall in *. intros y Hy.
  apply in_map_iff in Hy. destruct Hy as (x & <- & Hx).
  rewrite <- Hke, <- (Hkm x Hx). auto.
Qed.

Lemma sorted_head_least (l rest : list ReaderAlignment) (first : ReaderAlignment) :
  StronglySorted (fun x y => comp (key y) (key x) = false) l ->
  l = first :: rest ->
  forall entry, In entry l -> comp (key entry) (key first) = false.
Proof.
  intros Hs -> entry Hin.
  apply StronglySorted_inv in Hs. destruct Hs as [_ Hx].
  destruct Hin as [-> | Hin]; [ apply swo_irrefl | ].
  rewrite Forall_forall in Hx. auto.
Qed.
End WellKeyed.

Lemma Create_invariant (BuildCharData : BamAlignment -> bool * BamAlignment)
  (v : Variant) :
  invariant BuildCharData v (Create (merger BuildCharData v)).
Proof. destruct v; simpl; auto; apply well_keyed_nil. Qed.

Lemma Add_invariant (BuildCharData : BamAlignment -> bool * BamAlignment)
  (v : Variant) (value : ReaderAlignment) (m : state (merger BuildCharData v)) :
  invariant BuildCharData v m ->
  invariant BuildCharData v (Add (merger BuildCharData v) value m).
Proof.
  destruct v; simpl; auto; intros H.
  - apply (well_keyed_insert (key := position_key)); auto; exact _.
  - unfold ReadNameMultiMerger.Add.
    destruct (BuildCharData (snd value)) as [[ | ] al]; auto.
    apply (well_keyed_insert (key := name_key) (fst value, al)); auto; exact _.
Qed.

Lemma call_invariant (BuildCharData : BamAlignment -> bool * BamAlignment)
  (v : Variant) (c : Call) (m m' : state (merger BuildCharData v)) (r : Returned) :
  invariant BuildCharData v m ->
  call (merger BuildCharData v) c m = Some (r, m') ->
  invariant BuildCharData v m'.
Proof.
  intros Hinv Hcall. destruct c; simpl in Hcall.
  - inversion Hcall; subst. now apply Add_invariant.
  - inversion Hcall; subst. destruct v; simpl; auto; apply well_keyed_nil.
  - destruct (First _ m); inversion Hcall; subst; auto.
  - inversion Hcall; subst; auto.
  - inversion Hcall; subst. destruct v, reader as [rd | ]; simpl in *; auto;
      now apply well_keyed_erase.
  - inversion Hcall; subst; auto.
  - destruct v; simpl in *; auto; destruct m as [ | e m ]; simpl in *;
      inversion Hcall; subst; eapply well_keyed_tail; eauto.
Qed.

Lemma run_invariant (BuildCharData : BamAlignment -> bool * BamAlignment)
  (v : Variant) (cs : list Call) :
  forall (m m' : state (merger BuildCharData v)) (rs : list Returned),
    invariant BuildCharData v m ->
    run (merger BuildCharData v) cs m = Some (rs, m') ->
    invariant BuildCharData v m'.
Proof.
  induction cs as [ | c cs IH ]; intros m m' rs Hinv Hrun; simpl in Hrun.
  - inversion Hrun; subst; auto.
  - destruct (call _ c m) as [[r m1] | ] eqn:Hc; [ | discriminate ].
    destruct (run _ cs m1) as [[rs1 m2] | ] eqn:Hr; [ | discriminate ].
    inversion Hrun; subst.
    eapply IH; [ | exact Hr ]. eapply call_invariant; eauto.
Qed.

Lemma add_all_invariant (BuildCharData : BamAlignment -> bool * BamAlignment)
  (v : Variant) (values : list ReaderAlignment) :
  forall m : state (merger BuildCharData v),
    invariant BuildCharData v m ->
    invariant BuildCharData v (add_all (merger BuildCharData v) values m).
Proof.
  induction values as [ | value values IH ]; intros m H; simpl; auto.
  apply IH. now apply Add_invariant.
Qed.

Lemma StronglySorted_middle {A : Type} (R : A -> A -> Prop) (before : list A) :
  forall (x : A) (after : list A),
    StronglySorted R (before ++ x :: after) -> Forall (R x) after.
Proof.
  induction before as [ | b before IH ]; intros x after H; simpl in H;
    apply StronglySorted_inv in H; destruct H as [H1 H2]; auto.
Qed.

Lemma Position_add_all_perm (values : list ReaderAlignment) :
  forall m : state PositionMerger,
    Permutation (map snd (add_all PositionMerger values m)) (map snd m ++ values).
Proof.
  induction values as [ | value values IH ]; intros m; simpl.
  - rewrite app_nil_r. apply Permutation_refl.
  - rewrite IH. unfold PositionMultiMerger.Add.
    rewrite (Permutation_map snd (insert_perm SortLessThanPosition _ m)). simpl.
    apply Permutation_middle.
Qed.

Lemma ReadName_add_all_perm (BuildCharData : BamAlignment -> bool * BamAlignment)
  (values : list ReaderAlignment) :
  forall m : state (ReadNameMerger BuildCharData),
    Permutation (map snd (add_all (ReadNameMerger BuildCharData) values m))
      (map snd m ++ materialized BuildCharData values).
Proof.
  induction values as [ | value values IH ]; intros m; simpl.
  - rewrite app_nil_r. apply Permutation_refl.
  - rewrite IH. unfold ReadNameMultiMerger.Add.
    destruct (BuildCharData (snd value)) as [[ | ] al]; simpl.
    + rewrite (Permutation_map snd (insert_perm ReadNameMultiMerger.Compare _ m)).
      simpl. apply Permutation_middle.
    + apply Permutation_refl.
Qed.

(** ** The member functions on small inputs *)

Example SortLessThanPosition_unmapped_last :
  SortLessThanPosition (7, 0)%Z (-1, 0)%Z = true /\
  SortLessThanPosition (-1, 0)%Z (7, 0)%Z = false /\
  SortLessThanPosition (-2, 9)%Z (-1, 0)%Z = true /\
  SortLessThanPosition (3, 5)%Z (3, 5)%Z = false.
Proof. repeat split. Qed.

Example Unsorted_Clear_of_five (a b c d e : ReaderAlignment) :
  UnsortedMultiMerger.Clear [a; b; c; d; e] = [a; b].
Proof. reflexivity. Qed.

Example Unsorted_Clear_of_one (a : ReaderAlignment) :
  UnsortedMultiMerger.Clear [a] = [].
Proof. reflexivity. Qed.

(** Three position-sorted sources, [(0,10); (0,50)], [(0,20)] and [(1,5)],
    fed head by head: each [TakeFirst] is followed by the insert of the next
    record of the source it came from, if there is one. *)
Example driver_protocol_merge :
  let s1 := Some (mkBamReader 1 "one.bam") in
  let s2 := Some (mkBamReader 2 "two.bam") in
  let s3 := Some (mkBamReader 3 "three.bam") in
  run PositionMerger
    [ CallAdd (s1, mkBamAlignment 0 10 "r");
      CallAdd (s2, mkBamAlignment 0 20 "r");
      CallAdd (s3, mkBamAlignment 1 5 "r");
      CallTakeFirst; CallAdd (s1, mkBamAlignment 0 50 "r");
      CallTakeFirst; CallTakeFirst; CallTakeFirst; CallIsEmpty ]
    (Create PositionMerger) =
  Some ([ RetVoid; RetVoid; RetVoid;
          RetEntry (s1, mkBamAlignment 0 10 "r"); RetVoid;
          RetEntry (s2, mkBamAlignment 0 20 "r");
          RetEntry (s1, mkBamAlignment 0 50 "r");
          RetEntry (s3, mkBamAlignment 1 5 "r");
          RetBool true ], []).
Proof. reflexivity. Qed.

(** ** The claims *)

(** C10. [SortLessThanPosition] is a strict weak ordering on
    (referenceId, position) keys: irreflexive, asymmetric and transitive, with
    an incomparability relation that is reflexive, symmetric and transitive.
    Two keys are incomparable exactly when both have referenceId -1 or they
    are equal; so two unmapped keys are incomparable whatever their positions,
    and the keys incomparable with an unmapped key are the unmapped ones. *)
Theorem C10_SortLessThanPosition_strict_weak_ordering :
  (forall a, SortLessThanPosition a a = false) /\
  (forall a b, SortLessThanPosition a b = true -> SortLessThanPosition b a = false) /\
  (forall a b c, SortLessThanPosition a b = true -> SortLessThanPosition b c = true ->
                 SortLessThanPosition a c = true) /\
  (forall a, incomparable SortLessThanPosition a a) /\
  (forall a b, incomparable SortLessThanPosition a b ->
               incomparable SortLessThanPosition b a) /\
  (forall a b c, incomparable SortLessThanPosition a b ->
                 incomparable SortLessThanPosition b c ->
                 incomparable SortLessThanPosition a c) /\
  (forall p q : Z, SortLessThanPosition (-1, p)%Z (-1, q)%Z = false /\
                   SortLessThanPosition (-1, q)%Z (-1, p)%Z = false) /\
  (forall a b, fst a = (-1)%Z ->
               (incomparable SortLessThanPosition a b <-> fst b = (-1)%Z)).
Proof.
  split; [ exact SortLessThanPosition_irrefl | ].
  split; [ exact SortLessThanPosition_asym | ].
  split; [ exact SortLessThanPosition_trans | ].
  split; [ intros a; split; apply SortLessThanPosition_irrefl | ].
  split; [ intros a b [H1 H2]; split; assumption | ].
  split.
  { intros a b c [H1 H2] [H3 H4].
    exact (swo_incomp_trans a b c H1 H2 H3 H4). }
  split.
  { intros p q. split; reflexivity. }
  intros a b Ha. rewrite SortLessThanPosition_incomparable_iff. split.
  - intros [[_ Hb] | <-]; assumption.
  - intros Hb. left. split; assumption.
Qed.

(** A run of the order on concrete keys, mapped and unmapped. *)
Lemma C10_witness :
  SortLessThanPosition (1, 1)%Z (2, 100)%Z = true /\
  SortLessThanPosition (2, 100)%Z (-1, 5)%Z = true /\
  SortLessThanPosition (1, 1)%Z (-1, 5)%Z = true /\
  SortLessThanPosition (2, 100)%Z (1, 1)%Z = false /\
  incomparable SortLessThanPosition (-1, 5)%Z (-1, 900)%Z.
Proof.
  pose proof C10_SortLessThanPosition_strict_weak_ordering
    as (_ & Hasym & Htrans & _ & _ & _ & Hunmapped & _).
  assert (H12 : SortLessThanPosition (1, 1)%Z (2, 100)%Z = true) by reflexivity.
  assert (H23 : SortLessThanPosition (2, 100)%Z (-1, 5)%Z = true) by reflexivity.
  split; [ exact H12 | ]. split; [ exact H23 | ].
  split; [ exact (Htrans _ _ _ H12 H23) | ].
  split; [ exact (Hasym _ _ H12) | ].
  exact (Hunmapped 5%Z 900%Z).
Defined.

Lemma SortLessThanPosition_not_before (a b : Z * Z) :
  SortLessThanPosition b a = false <-> position_le a b.
Proof.
  destruct a as [ra pa], b as [rb pb]. unfold position_le. simpl. split.
  - intros H. slp_cases.
  - intros [H | (Ha & Hb & [H | [H1 H2]])]; slp_cases.
Qed.

Lemma StronglySorted_weaken {A : Type} (R R' : A -> A -> Prop) (l : list A) :
  (forall x y, R x y -> R' x y) -> StronglySorted R l -> StronglySorted R' l.
Proof.
  intros HR. induction 1 as [ | x l Hs IH Hx ]; [ apply SSorted_nil | ].
  apply SSorted_cons; [ exact IH | ].
  eapply Forall_impl; [ | exact Hx ]. intros y. apply HR.
Qed.

(** C1. Position order: after any sequence of inserts into a new merger,
    taking entries until the merger is empty ends with the merger empty and
    returns every inserted entry once, in an order in which no entry's
    (RefID, Position) key is less than the key of an entry returned before
    it; an entry with RefID -1 is followed by entries with RefID -1 only.
    Written out on the integers: of two entries, the one returned later is
    unmapped, or both are mapped and the earlier has the lesser RefID, or the
    same RefID and a Position that is not greater.
    A key with referenceId -1 is greater than every key with another
    referenceId, whatever the positions.  Keys (-1,5), (2,100), (1,1) come
    out as (1,1), (2,100), (-1,5); keys (0,50), (0,10), (0,20) come out as
    (0,10), (0,20), (0,50). *)
Theorem C1_position_order_drain_sorted :
  (forall values : list ReaderAlignment,
     let m := add_all PositionMerger values (Create PositionMerger) in
     let taken := fst (drain_all PositionMerger m) in
     IsEmpty PositionMerger (snd (drain_all PositionMerger m)) = true /\
     Permutation taken values /\
     StronglySorted
       (fun x y => SortLessThanPosition (position_key y) (position_key x) = false)
       taken /\
     StronglySorted
       (fun x y => position_le (position_key x) (position_key y)) taken /\
     (forall before x after,
        taken = before ++ x :: after -> RefID (snd x) = (-1)%Z ->
        Forall (fun y => RefID (snd y) = (-1)%Z) after)) /\
  (forall unmapped mapped : Z * Z,
     fst unmapped = (-1)%Z -> fst mapped <> (-1)%Z ->
     SortLessThanPosition mapped unmapped = true /\
     SortLessThanPosition unmapped mapped = false) /\
  (forall (r1 r2 r3 : option BamReader) (n1 n2 n3 : string),
     fst (drain_all PositionMerger
            (add_all PositionMerger
               [ (r1, mkBamAlignment (-1) 5 n1);
                 (r2, mkBamAlignment 2 100 n2);
                 (r3, mkBamAlignment 1 1 n3) ]
               (Create PositionMerger))) =
     [ (r3, mkBamAlignment 1 1 n3);
       (r2, mkBamAlignment 2 100 n2);
       (r1, mkBamAlignment (-1) 5 n1) ]) /\
  (forall (r1 r2 r3 : option BamReader) (n1 n2 n3 : string),
     fst (drain_all PositionMerger
            (add_all PositionMerger
               [ (r1, mkBamAlignment 0 50 n1);
                 (r2, mkBamAlignment 0 10 n2);
                 (r3, mkBamAlignment 0 20 n3) ]
               (Create PositionMerger))) =
     [ (r2, mkBamAlignment 0 10 n2);
       (r3, mkBamAlignment 0 20 n3);
       (r1, mkBamAlignment 0 50 n1) ]).
Proof.
  split; [ | split; [ | split ] ].
  - intros values m taken.
    destruct (drain_all_buffered (fun al => (true, al)) PositionOrder m)
      as [Htaken Hempty].
    change (taken = map snd m) in Htaken.
    change (IsEmpty PositionMerger (snd (drain_all PositionMerger m)) = true)
      in Hempty.
    assert (Hinv : well_keyed SortLessThanPosition position_key m).
    { apply (add_all_invariant (fun al => (true, al)) PositionOrder).
      apply well_keyed_nil. }
    assert (Hsorted : StronglySorted
              (fun x y => SortLessThanPosition (position_key y) (position_key x) = false)
              taken).
    { rewrite Htaken. now apply well_keyed_values. }
    split; [ exact Hempty | ]. split; [ | split; [ | split ] ].
    + rewrite Htaken. apply (Position_add_all_perm values []).
    + exact Hsorted.
    + eapply StronglySorted_weaken; [ | exact Hsorted ].
      intros x y. apply SortLessThanPosition_not_before.
    + intros before x after Heq Hx. rewrite Heq in Hsorted.
      apply StronglySorted_middle in Hsorted.
      eapply Forall_impl; [ | exact Hsorted ].
      intros y Hy. unfold position_key in Hy.
      destruct (Z.eq_dec (RefID (snd y)) (-1)) as [ | Hne ]; [ assumption | ].
      exfalso. slp_cases.
  - intros [ru pu] [rm pm] Hu Hm. simpl in *. subst. split; slp_cases.
  - intros. reflexivity.
  - intros. reflexivity.
Qed.

Lemma Unsorted_add_all (values : list ReaderAlignment) :
  forall m : state UnsortedMerger, add_all UnsortedMerger values m = m ++ values.
Proof.
  induction values as [ | value values IH ]; intros m; simpl.
  - now rewrite app_nil_r.
  - rewrite IH. unfold UnsortedMultiMerger.Add. now rewrite <- app_assoc.
Qed.

Lemma existsb_matches_map_snd {K : Type} (f : string)
  (m : list (K * ReaderAlignment)) :
  existsb (matches (fun e : K * ReaderAlignment => fst (snd e)) f) m =
  existsb (matches (fun e : ReaderAlignment => fst e) f) (map snd m).
Proof.
  induction m as [ | e m IH ]; simpl; [ reflexivity | ].
  now rewrite IH.
Qed.

(** C2. [Clear] of the sorted mergers empties the container.  [Clear] of
    [UnsortedMultiMerger] does not: its loop tests [i] against the size it is
    shrinking, stops half way and leaves the first [n / 2] of [n] entries;
    after two inserts, [Clear] leaves the first entry, [Size] is 1 and
    [IsEmpty] is false. *)
Theorem C2_unsorted_Clear_leaves_half :
  (forall a b : ReaderAlignment,
     let m := add_all UnsortedMerger [a; b] (Create UnsortedMerger) in
     Clear UnsortedMerger m = [a] /\
     Size UnsortedMerger (Clear UnsortedMerger m) = 1%Z /\
     IsEmpty UnsortedMerger (Clear UnsortedMerger m) = false) /\
  (forall m : state UnsortedMerger,
     Clear UnsortedMerger m = firstn (length m / 2) m) /\
  (forall m : state PositionMerger,
     Clear PositionMerger m = [] /\
     Size PositionMerger (Clear PositionMerger m) = 0%Z /\
     IsEmpty PositionMerger (Clear PositionMerger m) = true) /\
  (forall (BuildCharData : BamAlignment -> bool * BamAlignment)
          (m : state (ReadNameMerger BuildCharData)),
     Clear (ReadNameMerger BuildCharData) m = [] /\
     Size (ReadNameMerger BuildCharData) (Clear (ReadNameMerger BuildCharData) m) = 0%Z /\
     IsEmpty (ReadNameMerger BuildCharData)
       (Clear (ReadNameMerger BuildCharData) m) = true).
Proof.
  split; [ | split; [ | split ] ].
  - intros a b m. repeat split.
  - exact Unsorted_Clear_spec.
  - intros m. repeat split.
  - intros BuildCharData m. repeat split.
Qed.

(** C3. Name order: an insert whose [BuildCharData] returns false returns
    as any insert does (the member function is void and has no other exit)
    and leaves the merger as it was, so with the same size; an insert whose
    [BuildCharData] returns true puts one element in the multimap, filed
    under the [Name] the alignment has after the call, and the others stay
    as they were. *)
Theorem C3_name_order_insert (BuildCharData : BamAlignment -> bool * BamAlignment)
  (value : ReaderAlignment) (m : state (ReadNameMerger BuildCharData)) :
  let I := ReadNameMerger BuildCharData in
  let al := snd (BuildCharData (snd value)) in
  (fst (BuildCharData (snd value)) = false ->
   call I (CallAdd value) m = Some (RetVoid, m) /\
   Size I (Add I value m) = Size I m) /\
  (fst (BuildCharData (snd value)) = true ->
   exists before after,
     m = before ++ after /\
     Add I value m = before ++ (Name al, (fst value, al)) :: after /\
     call I (CallAdd value) m =
       Some (RetVoid, before ++ (Name al, (fst value, al)) :: after) /\
     Size I (Add I value m) = (Size I m + 1)%Z).
Proof.
  intros I al. subst I al.
  cbn [call Add Size ReadNameMerger]. unfold ReadNameMultiMerger.Add.
  destruct (BuildCharData (snd value)) as [ok al]; cbn [fst snd]; cbv zeta.
  split; intros ->.
  - split; reflexivity.
  - destruct (insert_split ReadNameMultiMerger.Compare (Name al, (fst value, al)) m)
      as (before & after & Hm & Hins & _).
    exists before, after.
    split; [ exact Hm | ]. split; [ exact Hins | ].
    split; [ exact (f_equal (fun x => Some (RetVoid, x)) Hins) | ].
    unfold ReadNameMultiMerger.Size, StdMultimap.size.
    transitivity (Z.of_nat (S (length m))); [ | exact (Nat2Z.inj_succ _) ].
    exact (f_equal Z.of_nat (insert_length ReadNameMultiMerger.Compare _ m)).
Qed.

Lemma C3_witness :
  let I := ReadNameMerger BuildCharData_nonempty in
  let kept := (None, mkBamAlignment 0 7 "read1") in
  let held := [("read1"%string, kept)] in
  Add I (None, mkBamAlignment 0 3 EmptyString) held = held /\
  Size I (Add I (None, mkBamAlignment 0 3 EmptyString) held) = 1%Z /\
  Size I (Add I (None, mkBamAlignment 0 9 "read0") held) = 2%Z.
Proof.
  intros I kept held.
  pose proof (@C3_name_order_insert BuildCharData_nonempty
                (None, mkBamAlignment 0 3 EmptyString) held) as [Hdrop _].
  pose proof (@C3_name_order_insert BuildCharData_nonempty
                (None, mkBamAlignment 0 9 "read0") held) as [_ Hkeep].
  destruct (Hdrop eq_refl) as [Hcall Hsize].
  destruct (Hkeep eq_refl) as (before & after & _ & _ & _ & Hsize').
  split; [ | split ].
  - inversion Hcall. reflexivity.
  - exact Hsize.
  - exact Hsize'.
Defined.

Lemma erase_first_match_one_erased {E : Type} (entryReader : E -> option BamReader)
  (f : string) (data : list E) :
  existsb (matches entryReader f) data = true ->
  one_erased data (erase_first_match entryReader f data).
Proof.
  intros H. destruct (erase_first_match_some _ _ _ H)
    as (before & x & after & Hd & _ & _ & He).
  exists before, x, after. split; assumption.
Qed.

(** C4. Every variant: when some buffered entry has a reader with the file
    name of the reader given, [Remove] erases the first such entry in
    iteration order and nothing else: the entries before it and after it stay,
    in their order, whatever other entries match or share its sort key; the
    size goes down by one and what holds of every merger still holds. *)
Theorem C4_Remove_erases_first_match
  (BuildCharData : BamAlignment -> bool * BamAlignment) (v : Variant)
  (r : BamReader) (m : state (merger BuildCharData v))
  (Hmatch : removal_succeeds (merger BuildCharData v) (Some r) m = true) :
  let I := merger BuildCharData v in
  let same_file := matches (fun e : ReaderAlignment => fst e) (GetFilename r) in
  exists before entry after,
    buffered I m = before ++ entry :: after /\
    same_file entry = true /\
    existsb same_file before = false /\
    buffered I (Remove I (Some r) m) = before ++ after /\
    call I (CallRemove (Some r)) m = Some (RetVoid, Remove I (Some r) m) /\
    Size I (Remove I (Some r) m) = (Size I m - 1)%Z /\
    container_one_erased BuildCharData v m (Remove I (Some r) m) /\
    (invariant BuildCharData v m -> invariant BuildCharData v (Remove I (Some r) m)).
Proof.
  intros I same_file. subst I same_file. simpl in Hmatch.
  destruct (erase_first_match_some _ _ _ Hmatch)
    as (before & entry & after & Hm & He & Hb & Herase).
  exists before, entry, after.
  split; [ exact Hm | ]. split; [ exact He | ]. split; [ exact Hb | ].
  assert (Hbuf : buffered (merger BuildCharData v)
                   (Remove (merger BuildCharData v) (Some r) m) = before ++ after).
  { rewrite Remove_buffered. exact Herase. }
  split; [ exact Hbuf | ]. split; [ reflexivity | ]. split; [ | split ].
  - rewrite !Size_length, Hbuf, Hm, !length_app. simpl. lia.
  - clear - Hmatch. destruct v; simpl in *; apply erase_first_match_one_erased;
      first [ exact Hmatch
            | exact (eq_trans (existsb_matches_map_snd _ m) Hmatch) ].
  - intros Hinv.
    apply (@call_invariant BuildCharData v (CallRemove (Some r)) m _ RetVoid Hinv).
    reflexivity.
Qed.

(** Three entries from the files x.bam, y.bam and y.bam again: removing a
    reader of y.bam erases the first of the two. *)
Lemma C4_witness :
  let X := Some (mkBamReader 1 "x.bam") in
  let Y := Some (mkBamReader 2 "y.bam") in
  let Y' := Some (mkBamReader 3 "y.bam") in
  let a := mkBamAlignment 0 10 "a" in
  let m := add_all UnsortedMerger [(X, a); (Y, a); (Y', a)] (Create UnsortedMerger) in
  Size UnsortedMerger (Remove UnsortedMerger (Some (mkBamReader 9 "y.bam")) m) = 2%Z /\
  Remove UnsortedMerger (Some (mkBamReader 9 "y.bam")) m = [(X, a); (Y', a)].
Proof.
  intros X Y Y' a m.
  destruct (@C4_Remove_erases_first_match (fun al => (true, al)) InsertionOrder
              (mkBamReader 9 "y.bam") m eq_refl)
    as (before & entry & after & _ & _ & _ & _ & _ & Hsize & _ & _).
  split; [ exact Hsize | reflexivity ].
Defined.

(** C5. Every variant: [Remove] of a null reader, and [Remove] of a reader
    whose file name no buffered entry's reader has, return and leave the
    merger exactly as it was. *)
Theorem C5_Remove_without_match
  (BuildCharData : BamAlignment -> bool * BamAlignment) (v : Variant)
  (reader : option BamReader) (m : state (merger BuildCharData v))
  (Hnone : removal_succeeds (merger BuildCharData v) reader m = false) :
  let I := merger BuildCharData v in
  Remove I reader m = m /\
  call I (CallRemove reader) m = Some (RetVoid, m).
Proof.
  intros I. subst I.
  assert (H : Remove (merger BuildCharData v) reader m = m).
  { destruct reader as [r | ]; [ | destruct v; reflexivity ].
    destruct v; simpl in *; apply erase_first_match_none;
      first [ exact Hnone
            | exact (eq_trans (existsb_matches_map_snd _ m) Hnone) ]. }
  split; [ exact H | ]. simpl. now rewrite H.
Qed.

Lemma C5_witness :
  let X := Some (mkBamReader 1 "x.bam") in
  let a := mkBamAlignment 0 10 "a" in
  let m := add_all PositionMerger [(X, a); (None, a)] (Create PositionMerger) in
  Remove PositionMerger None m = m /\
  Remove PositionMerger (Some (mkBamReader 2 "z.bam")) m = m.
Proof.
  intros X a m. split.
  - exact (proj1 (@C5_Remove_without_match (fun al => (true, al)) PositionOrder
                    None m eq_refl)).
  - exact (proj1 (@C5_Remove_without_match (fun al => (true, al)) PositionOrder
                    (Some (mkBamReader 2 "z.bam")) m eq_refl)).
Defined.

(** C6. Insertion order: inserts append, so after any inserts the entries
    sit oldest first; [First] returns the oldest buffered entry and
    [TakeFirst] returns it and leaves the later ones in their order; taking
    entries until the merger is empty returns the inserted entries in the
    order of their insertion.  Inserting A, B, C yields A, B, C. *)
Theorem C6_insertion_order_fifo :
  (forall (values : list ReaderAlignment) (m : state UnsortedMerger),
     add_all UnsortedMerger values m = m ++ values) /\
  (forall (oldest : ReaderAlignment) (m : state UnsortedMerger)
          (values : list ReaderAlignment),
     let m' := add_all UnsortedMerger values (oldest :: m) in
     First UnsortedMerger m' = Some (Live oldest) /\
     call UnsortedMerger CallFirst m' = Some (RetReference (Live oldest), m') /\
     TakeFirst UnsortedMerger m' = Some (oldest, add_all UnsortedMerger values m)) /\
  (forall values : list ReaderAlignment,
     let m := add_all UnsortedMerger values (Create UnsortedMerger) in
     fst (drain_all UnsortedMerger m) = values /\
     IsEmpty UnsortedMerger (snd (drain_all UnsortedMerger m)) = true) /\
  (forall A B C : ReaderAlignment,
     fst (drain_all UnsortedMerger
            (add_all UnsortedMerger [A; B; C] (Create UnsortedMerger))) = [A; B; C]).
Proof.
  split; [ exact Unsorted_add_all | ]. split; [ | split ].
  - intros oldest m values m'. subst m'. rewrite !Unsorted_add_all.
    repeat split.
  - intros values m.
    destruct (drain_all_buffered (fun al => (true, al)) InsertionOrder m) as [H1 H2].
    split; [ | exact H2 ].
    etransitivity; [ exact H1 | ]. subst m. now rewrite Unsorted_add_all.
  - intros A B C. reflexivity.
Qed.

Lemma materialized_all (BuildCharData : BamAlignment -> bool * BamAlignment)
  (values : list ReaderAlignment) :
  Forall (fun value => fst (BuildCharData (snd value)) = true) values ->
  materialized BuildCharData values =
  map (fun value => (fst value, snd (BuildCharData (snd value)))) values.
Proof.
  induction values as [ | value values IH ]; intros H; simpl; [ reflexivity | ].
  inversion H as [ | ? ? Hv Hvs ]; subst. rewrite (IH Hvs).
  destruct (BuildCharData (snd value)) as [ok al]; simpl in *. now rewrite Hv.
Qed.

(** C7. Name order: after any sequence of inserts into a new merger whose
    [BuildCharData] calls all return true, taking entries until the merger is
    empty ends with the merger empty and returns every inserted entry once
    (with the alignment as [BuildCharData] left it), in an order in which no
    entry's name is lexicographically less than the name of an entry returned
    before it.  Names "read3", "read1", "read2" come out as "read1", "read2",
    "read3". *)
Theorem C7_name_order_drain_sorted
  (BuildCharData : BamAlignment -> bool * BamAlignment) :
  let I := ReadNameMerger BuildCharData in
  (forall values : list ReaderAlignment,
     Forall (fun value => fst (BuildCharData (snd value)) = true) values ->
     let m := add_all I values (Create I) in
     let taken := fst (drain_all I m) in
     IsEmpty I (snd (drain_all I m)) = true /\
     Permutation taken
       (map (fun value => (fst value, snd (BuildCharData (snd value)))) values) /\
     StronglySorted
       (fun x y => String.ltb (Name (snd y)) (Name (snd x)) = false) taken) /\
  (forall (r1 r2 r3 : option BamReader) (a1 a2 a3 b1 b2 b3 : BamAlignment),
     BuildCharData a1 = (true, b1) -> Name b1 = "read3"%string ->
     BuildCharData a2 = (true, b2) -> Name b2 = "read1"%string ->
     BuildCharData a3 = (true, b3) -> Name b3 = "read2"%string ->
     fst (drain_all I (add_all I [(r1, a1); (r2, a2); (r3, a3)] (Create I))) =
     [(r2, b2); (r3, b3); (r1, b1)]).
Proof.
  intros I. split.
  - intros values Hok m taken.
    destruct (drain_all_buffered BuildCharData NameOrder m) as [Htaken Hempty].
    change (taken = map snd m) in Htaken.
    change (IsEmpty I (snd (drain_all I m)) = true) in Hempty.
    assert (Hinv : well_keyed ReadNameMultiMerger.Compare name_key m).
    { apply (add_all_invariant BuildCharData NameOrder). apply well_keyed_nil. }
    split; [ exact Hempty | ]. split.
    + rewrite Htaken, <- materialized_all by assumption.
      apply (@ReadName_add_all_perm BuildCharData values []).
    + rewrite Htaken.
      exact (well_keyed_values (comp := ReadNameMultiMerger.Compare) Hinv).
  - intros r1 r2 r3 a1 a2 a3 b1 b2 b3 H1 N1 H2 N2 H3 N3.
    subst I. unfold drain_all. simpl. unfold ReadNameMultiMerger.Add. simpl.
    rewrite H1, H2, H3, N1, N2, N3. reflexivity.
Qed.

Lemma C7_witness :
  let I := ReadNameMerger BuildCharData_ready in
  map (fun entry : ReaderAlignment => Name (snd entry))
    (fst (drain_all I
            (add_all I [ (None, mkBamAlignment 0 30 "read3");
                         (None, mkBamAlignment 0 10 "read1");
                         (None, mkBamAlignment 0 20 "read2") ] (Create I)))) =
  [ "read1"%string; "read2"%string; "read3"%string ].
Proof.
  intros I.
  exact (f_equal (map (fun entry : ReaderAlignment => Name (snd entry)))
          (proj2 (C7_name_order_drain_sorted BuildCharData_ready)
             None None None
             (mkBamAlignment 0 30 "read3") (mkBamAlignment 0 10 "read1")
             (mkBamAlignment 0 20 "read2")
             (mkBamAlignment 0 30 "read3") (mkBamAlignment 0 10 "read1")
             (mkBamAlignment 0 20 "read2")
             eq_refl eq_refl eq_refl eq_refl eq_refl eq_refl)).
Defined.

(** ** Size accounting *)

Lemma Add_Size (BuildCharData : BamAlignment -> bool * BamAlignment)
  (v : Variant) (value : ReaderAlignment) (m : state (merger BuildCharData v)) :
  Size (merger BuildCharData v) (Add (merger BuildCharData v) value m) =
  (Size (merger BuildCharData v) m +
   (if insert_succeeds BuildCharData v value then 1 else 0))%Z.
Proof.
  destruct v; simpl.
  - unfold PositionMultiMerger.Size, PositionMultiMerger.Add, StdMultimap.size.
    transitivity (Z.of_nat (S (length m))); [ | exact (Nat2Z.inj_succ _) ].
    exact (f_equal Z.of_nat (insert_length SortLessThanPosition _ m)).
  - unfold ReadNameMultiMerger.Size, ReadNameMultiMerger.Add, StdMultimap.size.
    destruct (BuildCharData (snd value)) as [[ | ] al]; cbn [fst].
    + transitivity (Z.of_nat (S (length m))); [ | exact (Nat2Z.inj_succ _) ].
      exact (f_equal Z.of_nat (insert_length ReadNameMultiMerger.Compare _ m)).
    + symmetry. apply Z.add_0_r.
  - unfold UnsortedMultiMerger.Size, UnsortedMultiMerger.Add.
    rewrite length_app. simpl. lia.
Qed.

Lemma Remove_Size (BuildCharData : BamAlignment -> bool * BamAlignment)
  (v : Variant) (reader : option BamReader) (m : state (merger BuildCharData v)) :
  Size (merger BuildCharData v) (Remove (merger BuildCharData v) reader m) =
  (Size (merger BuildCharData v) m -
   (if removal_succeeds (merger BuildCharData v) reader m then 1 else 0))%Z.
Proof.
  rewrite !Size_length, Remove_buffered. unfold removal_succeeds.
  destruct reader as [r | ]; [ | cbv iota; lia ].
  rewrite erase_first_match_length.
  destruct (existsb _ _) eqn:H; [ | cbv iota; lia ].
  destruct (buffered (merger BuildCharData v) m) as [ | x l ]; [ discriminate | ].
  cbn [length Nat.pred]. cbv iota. lia.
Qed.

Lemma TakeFirst_Size (BuildCharData : BamAlignment -> bool * BamAlignment)
  (v : Variant) (m m' : state (merger BuildCharData v)) (entry : ReaderAlignment) :
  TakeFirst (merger BuildCharData v) m = Some (entry, m') ->
  Size (merger BuildCharData v) m' = (Size (merger BuildCharData v) m - 1)%Z /\
  IsEmpty (merger BuildCharData v) m = false.
Proof.
  intros H. assert (Hb := TakeFirst_buffered BuildCharData v m).
  rewrite H in Hb. rewrite !Size_length, Hb. split; [ cbn [length]; lia | ].
  destruct (IsEmpty (merger BuildCharData v) m) eqn:He; [ | reflexivity ].
  apply IsEmpty_buffered in He. congruence.
Qed.

(** One call that is not [Clear] changes the size by what it counts for. *)
Lemma call_Size (BuildCharData : BamAlignment -> bool * BamAlignment)
  (v : Variant) (c : Call) (m m' : state (merger BuildCharData v)) (r : Returned) :
  is_clear c = false ->
  call (merger BuildCharData v) c m = Some (r, m') ->
  Size (merger BuildCharData v) m' =
  (Size (merger BuildCharData v) m
   + (if is_insert BuildCharData v c m then 1 else 0)
   - (if is_extraction BuildCharData v c m then 1 else 0)
   - (if is_removal BuildCharData v c m then 1 else 0))%Z.
Proof.
  intros Hc Hcall. destruct c; simpl in Hc, Hcall; try discriminate;
    cbn [is_insert is_extraction is_removal].
  - inversion Hcall; subst. rewrite Add_Size. lia.
  - destruct (First _ m); inversion Hcall; subst. lia.
  - inversion Hcall; subst. lia.
  - inversion Hcall; subst. rewrite Remove_Size. lia.
  - inversion Hcall; subst. lia.
  - destruct (TakeFirst _ m) as [[entry m1] | ] eqn:Ht; inversion Hcall; subst.
    destruct (TakeFirst_Size BuildCharData v m Ht) as [Hs He].
    rewrite Hs, He. simpl. lia.
Qed.

(** C8, what fails: one insert into a position-ordered merger and then
    [Clear]: the size is 0, with one insert counted and no extraction or
    removal. *)
Lemma C8_counterexample :
  let I := merger BuildCharData_ready PositionOrder in
  let cs := [CallAdd (None, mkBamAlignment 0 10 "read1"); CallClear] in
  run I cs (Create I) = Some ([RetVoid; RetVoid], []) /\
  Size I [] = 0%Z /\
  inserted BuildCharData_ready PositionOrder cs (Create I) = 1 /\
  extracted BuildCharData_ready PositionOrder cs (Create I) = 0 /\
  removed BuildCharData_ready PositionOrder cs (Create I) = 0 /\
  ~ (forall v, size_accounting BuildCharData_ready v).
Proof.
  intros I cs. repeat (split; [ reflexivity | ]).
  intros H. specialize (H PositionOrder cs [RetVoid; RetVoid] [] eq_refl).
  destruct H as [H _]. vm_compute in H. discriminate H.
Qed.

(** C8, amended. Every variant, from any merger: after a sequence of calls
    none of which is [Clear] (and none of which is undefined), the size is
    the size at the start, plus the inserts that buffered their entry, less
    the [TakeFirst] extractions and the removals that erased an entry; and
    [IsEmpty] is true exactly when the size is 0. *)
Theorem C8_size_accounting_without_Clear
  (BuildCharData : BamAlignment -> bool * BamAlignment) (v : Variant)
  (cs : list Call) :
  forall (m0 m : state (merger BuildCharData v)) (rs : list Returned),
    forallb (fun c => negb (is_clear c)) cs = true ->
    run (merger BuildCharData v) cs m0 = Some (rs, m) ->
    Size (merger BuildCharData v) m =
      (Size (merger BuildCharData v) m0
       + Z.of_nat (inserted BuildCharData v cs m0)
       - Z.of_nat (extracted BuildCharData v cs m0)
       - Z.of_nat (removed BuildCharData v cs m0))%Z /\
    (IsEmpty (merger BuildCharData v) m = true <->
     Size (merger BuildCharData v) m = 0%Z).
Proof.
  induction cs as [ | c cs IH ]; intros m0 m rs Hcs Hrun.
  - simpl in Hrun. inversion Hrun; subst. split.
    + unfold inserted, extracted, removed. simpl. lia.
    + rewrite IsEmpty_buffered, Size_length.
      destruct (buffered (merger BuildCharData v) m); simpl; split;
        intros H; try reflexivity; try discriminate H; lia.
  - simpl in Hcs. apply andb_prop in Hcs. destruct Hcs as [Hc Hcs].
    apply negb_true_iff in Hc.
    cbn [run] in Hrun.
    destruct (call _ c m0) as [[r m1] | ] eqn:Hcall; [ | discriminate ].
    destruct (run _ cs m1) as [[rs1 m2] | ] eqn:Hr; [ | discriminate ].
    inversion Hrun; subst.
    destruct (IH m1 m rs1 Hcs Hr) as [IHs IHe]. split; [ | exact IHe ].
    rewrite IHs, (call_Size BuildCharData v c m0 Hc Hcall).
    unfold inserted, extracted, removed. cbn [count_calls]. rewrite Hcall.
    destruct (is_insert BuildCharData v c m0),
      (is_extraction BuildCharData v c m0), (is_removal BuildCharData v c m0);
      lia.
Qed.

(** The driver's protocol on two position-sorted sources: insert both heads,
    look at the size, take the first, remove the other source. *)
Lemma C8_witness :
  let I := merger BuildCharData_ready PositionOrder in
  let X := Some (mkBamReader 1 "x.bam") in
  let Y := Some (mkBamReader 2 "y.bam") in
  let cs := [ CallAdd (X, mkBamAlignment 0 10 "read1");
              CallAdd (Y, mkBamAlignment 0 20 "read2");
              CallSize; CallTakeFirst; CallRemove Y; CallIsEmpty ] in
  Size I [] = (0 + Z.of_nat 2 - Z.of_nat 1 - Z.of_nat 1)%Z /\
  (IsEmpty I [] = true <-> Size I [] = 0%Z).
Proof.
  intros I X Y cs.
  exact (@C8_size_accounting_without_Clear BuildCharData_ready PositionOrder cs
           (Create I) []
           [RetVoid; RetVoid; RetInt 2; RetEntry (X, mkBamAlignment 0 10 "read1");
            RetVoid; RetBool true]
           eq_refl eq_refl).
Defined.

(** ** The first entry *)

Lemma subseq_refl {A : Type} (l : list A) : subseq l l.
Proof. induction l; [ apply subseq_nil | apply subseq_keep; assumption ]. Qed.

Lemma subseq_nil_l {A : Type} (h : list A) : subseq [] h.
Proof. induction h; [ apply subseq_nil | apply subseq_skip; assumption ]. Qed.

Lemma subseq_trans {A : Type} (l2 l3 : list A) :
  subseq l2 l3 -> forall l1, subseq l1 l2 -> subseq l1 l3.
Proof.
  induction 1 as [ | x l h H IH | x l h H IH ]; intros l1 H1.
  - exact H1.
  - apply subseq_skip. auto.
  - inversion H1; subst; [ apply subseq_skip | apply subseq_keep ]; auto.
Qed.

Lemma subseq_app {A : Type} (l1 h1 : list A) :
  subseq l1 h1 -> forall l2 h2, subseq l2 h2 -> subseq (l1 ++ l2) (h1 ++ h2).
Proof.
  induction 1 as [ | x l h H IH | x l h H IH ]; intros l2 h2 H2; simpl.
  - exact H2.
  - apply subseq_skip. auto.
  - apply subseq_keep. auto.
Qed.

Lemma subseq_firstn {A : Type} (n : nat) (l : list A) : subseq (firstn n l) l.
Proof.
  revert n. induction l as [ | x l IH ]; intros [ | n ]; simpl.
  - apply subseq_nil.
  - apply subseq_nil.
  - apply subseq_nil_l.
  - apply subseq_keep. apply IH.
Qed.

Lemma subseq_erase {E : Type} (entryReader : E -> option BamReader)
  (f : string) (data : list E) :
  subseq (erase_first_match entryReader f data) data.
Proof.
  induction data as [ | entry rest IH ]; simpl; [ apply subseq_nil | ].
  destruct (entryReader entry) as [r | ]; [ | apply subseq_keep; exact IH ].
  destruct (String.eqb (GetFilename r) f).
  - apply subseq_skip. apply subseq_refl.
  - apply subseq_keep. exact IH.
Qed.

Lemma subseq_cons_split {A : Type} (h : list A) :
  forall (x : A) (l : list A), subseq (x :: l) h ->
    exists earlier later, h = earlier ++ x :: later /\ subseq l later.
Proof.
  induction h as [ | y h IH ]; intros x l H; inversion H; subst.
  - destruct (IH x l ltac:(assumption)) as (earlier & later & -> & Hl).
    exists (y :: earlier), later. split; [ reflexivity | assumption ].
  - exists [], h. split; [ reflexivity | assumption ].
Qed.

Lemma added_app (cs1 cs2 : list Call) : added (cs1 ++ cs2) = added cs1 ++ added cs2.
Proof. apply flat_map_app. Qed.

(** Insertion order: the buffer is always the insert history with some
    entries left out, whatever was called. *)
Lemma Unsorted_call_subseq (c : Call) (m m' : state UnsortedMerger) (r : Returned)
  (history : list ReaderAlignment) :
  subseq m history ->
  call UnsortedMerger c m = Some (r, m') ->
  subseq m' (history ++ added [c]).
Proof.
  intros Hs Hcall. destruct c; simpl in Hcall; unfold added; simpl;
    rewrite ?app_nil_r.
  - inversion Hcall; subst. unfold UnsortedMultiMerger.Add.
    apply subseq_app; [ assumption | apply subseq_refl ].
  - inversion Hcall; subst. rewrite Unsorted_Clear_spec.
    eapply subseq_trans; [ exact Hs | apply subseq_firstn ].
  - destruct m; inversion Hcall; subst; assumption.
  - inversion Hcall; subst; assumption.
  - inversion Hcall; subst. destruct reader as [rd | ]; simpl; [ | assumption ].
    eapply subseq_trans; [ exact Hs | apply subseq_erase ].
  - inversion Hcall; subst; assumption.
  - destruct m as [ | e m ]; inversion Hcall; subst.
    eapply subseq_trans; [ exact Hs | ]. apply subseq_skip. apply subseq_refl.
Qed.

Lemma Unsorted_run_subseq (cs : list Call) :
  forall (m m' : state UnsortedMerger) (rs : list Returned)
         (history : list ReaderAlignment),
    subseq m history ->
    run UnsortedMerger cs m = Some (rs, m') ->
    subseq m' (history ++ added cs).
Proof.
  induction cs as [ | c cs IH ]; intros m m' rs history Hs Hrun; simpl in Hrun.
  - inversion Hrun; subst. unfold added. simpl. now rewrite app_nil_r.
  - destruct (call UnsortedMerger c m) as [[r m1] | ] eqn:Hc; [ | discriminate ].
    destruct (run UnsortedMerger cs m1) as [[rs1 m2] | ] eqn:Hr; [ | discriminate ].
    inversion Hrun; subst.
    change (c :: cs) with ([c] ++ cs). rewrite added_app, app_assoc.
    eapply IH; [ | exact Hr ]. eapply Unsorted_call_subseq; eauto.
Qed.

(** C9. Every variant, any merger reached from a new one by calls through
    the interface, when [IsEmpty] is false: [TakeFirst] returns the least
    buffered entry under the variant's order and leaves the others in their
    order, and [First] leaves the merger as it is.  In insertion order
    [First] returns a reference to that same entry.  In position order and in
    name order it does not: the reference [First] returns is to a temporary
    copy of the first element that is destroyed when [First] returns, and
    nothing can be read through it. *)
Theorem C9_First_of_sorted_mergers_dangles
  (BuildCharData : BamAlignment -> bool * BamAlignment) (v : Variant)
  (cs : list Call) (rs : list Returned) (m : state (merger BuildCharData v))
  (Hrun : run (merger BuildCharData v) cs (Create (merger BuildCharData v)) = Some (rs, m))
  (Hnonempty : IsEmpty (merger BuildCharData v) m = false) :
  let I := merger BuildCharData v in
  exists (first : ReaderAlignment) (m' : state I),
    TakeFirst I m = Some (first, m') /\
    call I CallTakeFirst m = Some (RetEntry first, m') /\
    buffered I m = first :: buffered I m' /\
    least BuildCharData v (added cs) m first /\
    First I m = Some (First_reference v first) /\
    call I CallFirst m = Some (RetReference (First_reference v first), m) /\
    read_reference (First_reference v first) =
      match v with
      | InsertionOrder => Some first
      | PositionOrder | NameOrder => None
      end.
Proof.
  intros I. subst I.
  assert (Hinv := @run_invariant BuildCharData v cs _ _ _
                    (Create_invariant BuildCharData v) Hrun).
  assert (Hfirst := First_buffered BuildCharData v m).
  assert (Htake := TakeFirst_buffered BuildCharData v m).
  destruct (TakeFirst (merger BuildCharData v) m) as [[first m'] | ] eqn:Ht.
  2:{ apply IsEmpty_buffered in Htake. congruence. }
  rewrite Htake in Hfirst.
  exists first, m'.
  split; [ reflexivity | ]. split; [ simpl; now rewrite Ht | ].
  split; [ exact Htake | ].
  split; [ | split; [ exact Hfirst | split;
                      [ simpl; now rewrite Hfirst | destruct v; reflexivity ] ] ].
  clear Ht Hfirst. destruct v; simpl in *.
  - intros entry Hin.
    pose proof (well_keyed_values (comp := SortLessThanPosition) Hinv) as Hv.
    exact (sorted_head_least (comp := SortLessThanPosition)
             position_key Hv Htake entry Hin).
  - intros entry Hin.
    pose proof (well_keyed_values (comp := ReadNameMultiMerger.Compare) Hinv) as Hv.
    exact (sorted_head_least (comp := ReadNameMultiMerger.Compare)
             name_key Hv Htake entry Hin).
  - assert (Hs := @Unsorted_run_subseq cs [] m rs [] (subseq_nil) Hrun).
    simpl in Hs. rewrite Htake in Hs. rewrite Htake. simpl.
    now apply subseq_cons_split.
Qed.

(** One entry in a position-ordered merger: [TakeFirst] would return it,
    and the reference [First] returns cannot be read. *)
Lemma C9_witness :
  let I := merger BuildCharData_ready PositionOrder in
  let X := Some (mkBamReader 1 "x.bam") in
  let only := (X, mkBamAlignment 0 10 "read1") in
  let m := Add I only (Create I) in
  IsEmpty I m = false /\
  TakeFirst I m = Some (only, Create I) /\
  First I m = Some Dangling /\
  read_reference Dangling = None.
Proof.
  intros I X only m.
  destruct (@C9_First_of_sorted_mergers_dangles BuildCharData_ready PositionOrder
              [CallAdd only] [RetVoid] m eq_refl eq_refl)
    as (first & m' & _ & _ & _ & _ & Hfirst & _ & Hread).
  split; [ reflexivity | ]. split; [ reflexivity | ].
  split; [ exact Hfirst | exact Hread ].
Defined.

(** * Further properties of the member functions *)

(** ** Strict weak orders: the order "not after" is transitive *)

Section StrictWeakOrderFacts.
Context {K : Type}.
Variable comp : K -> K -> bool.
Context `{!StrictWeakOrder comp}.

Lemma swo_le_trans (a b c : K) :
  comp b a = false -> comp c b = false -> comp c a = false.
Proof.
  intros Hba Hcb. destruct (comp c a) eqn:Hca; [ exfalso | reflexivity ].
  assert (Hbc : comp b c = false).
  { destruct (comp b c) eqn:H; [ | reflexivity ].
    rewrite <- Hba. symmetry. now apply swo_trans with c. }
  assert (Hab : comp a b = false).
  { destruct (comp a b) eqn:H; [ | reflexivity ].
    rewrite <- Hcb. symmetry. now apply swo_trans with a. }
  destruct (swo_incomp_trans a b c Hab Hba Hbc Hcb) as [_ H]. congruence.
Qed.

Lemma swo_lt_le_trans (a b c : K) :
  comp a b = true -> comp c b = false -> comp a c = true.
Proof.
  intros Hab Hcb. destruct (comp a c) eqn:Hac; [ reflexivity | ].
  rewrite <- Hab. symmetry. exact (swo_le_trans Hcb Hac).
Qed.

Lemma equivalent_keys_incomparable (a b : K) :
  equivalent_keys comp a b = true <-> incomparable comp a b.
Proof.
  unfold equivalent_keys, incomparable.
  rewrite andb_true_iff, !negb_true_iff. tauto.
Qed.

Lemma equivalent_keys_not_before (k a b : K) :
  equivalent_keys comp k a = true -> equivalent_keys comp k b = true ->
  comp a b = false.
Proof.
  rewrite !equivalent_keys_incomparable. intros [H1 H2] [H3 H4].
  exact (proj1 (swo_incomp_trans a k b H2 H1 H3 H4)).
Qed.
End StrictWeakOrderFacts.

(** ** [std::multimap]: where [insert] puts an element *)

Lemma filter_none {A : Type} (P : A -> bool) (l : list A) :
  Forall (fun x => P x = false) l -> filter P l = [].
Proof.
  induction 1 as [ | x l Hx Hl IH ]; simpl; [ reflexivity | ].
  now rewrite Hx.
Qed.

Lemma StronglySorted_before {A : Type} (R : A -> A -> Prop) (before : list A) :
  forall (x : A) (after : list A),
    StronglySorted R (before ++ x :: after) -> Forall (fun y => R y x) before.
Proof.
  induction before as [ | b before IH ]; intros x after H; simpl in H.
  - constructor.
  - apply StronglySorted_inv in H. destruct H as [H1 H2].
    constructor; [ | eauto ].
    rewrite Forall_forall in H2. apply H2. apply in_or_app. right. now left.
Qed.

Section InsertPlace.
Context {K V : Type}.
Variable comp : K -> K -> bool.
Context `{!StrictWeakOrder comp}.

Lemma insert_place (e : K * V) (m : list (K * V)) :
  StdMultimap.ordered comp m ->
  exists before after,
    m = before ++ after /\
    StdMultimap.insert comp e m = before ++ e :: after /\
    Forall (fun x => comp (fst e) (fst x) = false) before /\
    Forall (fun y => comp (fst e) (fst y) = true) after.
Proof.
  intros Hm.
  destruct (insert_split comp e m) as (before & after & Heq & Hins & Hb & Ha).
  exists before, after. split; [ exact Heq | ]. split; [ exact Hins | ].
  split; [ exact Hb | ].
  destruct after as [ | y rest ]; [ constructor | ].
  constructor; [ exact Ha | ].
  unfold StdMultimap.ordered in Hm. rewrite Heq in Hm.
  apply StronglySorted_middle in Hm.
  eapply Forall_impl; [ | exact Hm ].
  intros z Hz. now apply swo_lt_le_trans with (fst y).
Qed.

Lemma insert_at_end (e : K * V) (m : list (K * V)) :
  Forall (fun x => comp (fst e) (fst x) = false) m ->
  StdMultimap.insert comp e m = m ++ [e].
Proof.
  induction 1 as [ | x m Hx Hm IH ]; simpl; [ reflexivity | ].
  now rewrite Hx, IH.
Qed.

Lemma insert_filter_class (k : K) (e : K * V) (m : list (K * V)) :
  StdMultimap.ordered comp m ->
  filter (fun x => equivalent_keys comp k (fst x)) (StdMultimap.insert comp e m) =
  filter (fun x => equivalent_keys comp k (fst x)) m ++
  (if equivalent_keys comp k (fst e) then [e] else []).
Proof.
  intros Hm.
  destruct (insert_place e Hm) as (before & after & -> & -> & _ & Ha).
  rewrite !filter_app. simpl.
  destruct (equivalent_keys comp k (fst e)) eqn:He.
  - assert (Hnone : filter (fun x => equivalent_keys comp k (fst x)) after = []).
    { apply filter_none. eapply Forall_impl; [ | exact Ha ].
      intros y Hy. simpl in Hy.
      destruct (equivalent_keys comp k (fst y)) eqn:Hky; [ | reflexivity ].
      rewrite (@equivalent_keys_not_before K comp _ k (fst e) (fst y) He Hky) in Hy.
      discriminate Hy. }
    rewrite Hnone, app_nil_r. reflexivity.
  - now rewrite app_nil_r.
Qed.

Lemma insert_all_ordered (elements : list (K * V)) :
  forall m, StdMultimap.ordered comp m ->
            StdMultimap.ordered comp (insert_all comp elements m).
Proof.
  induction elements as [ | e elements IH ]; intros m Hm; [ exact Hm | ].
  change (insert_all comp (e :: elements) m)
    with (insert_all comp elements (StdMultimap.insert comp e m)).
  apply IH. now apply insert_ordered.
Qed.

Lemma insert_all_filter_class (k : K) (elements : list (K * V)) :
  forall m, StdMultimap.ordered comp m ->
    filter (fun x => equivalent_keys comp k (fst x)) (insert_all comp elements m) =
    filter (fun x => equivalent_keys comp k (fst x)) m ++
    filter (fun x => equivalent_keys comp k (fst x)) elements.
Proof.
  induction elements as [ | e elements IH ]; intros m Hm.
  - simpl. now rewrite app_nil_r.
  - change (insert_all comp (e :: elements) m)
      with (insert_all comp elements (StdMultimap.insert comp e m)).
    rewrite IH by now apply insert_ordered.
    rewrite insert_filter_class by assumption.
    rewrite <- app_assoc. f_equal. simpl.
    destruct (equivalent_keys comp k (fst e)); reflexivity.
Qed.

Lemma insert_all_sorted_input (elements : list (K * V)) :
  forall m,
    StronglySorted (fun x y => comp (fst y) (fst x) = false) (m ++ elements) ->
    insert_all comp elements m = m ++ elements.
Proof.
  induction elements as [ | e elements IH ]; intros m Hs.
  - simpl. now rewrite app_nil_r.
  - change (insert_all comp (e :: elements) m)
      with (insert_all comp elements (StdMultimap.insert comp e m)).
    rewrite insert_at_end by exact (StronglySorted_before _ _ _ Hs).
    rewrite IH; rewrite <- app_assoc; [ reflexivity | exact Hs ].
Qed.
End InsertPlace.

Lemma filter_by_key {K : Type} (key : ReaderAlignment -> K) (P : K -> bool)
  (m : list (K * ReaderAlignment)) :
  Forall (fun e => fst e = key (snd e)) m ->
  map snd (filter (fun x => P (fst x)) m) = filter (fun v => P (key v)) (map snd m).
Proof.
  induction 1 as [ | x m Hx Hm IH ]; simpl; [ reflexivity | ].
  rewrite <- Hx. destruct (P (fst x)); simpl; now rewrite IH.
Qed.

Lemma filter_keyed {K : Type} (key : ReaderAlignment -> K) (P : K -> bool)
  (values : list ReaderAlignment) :
  map snd (filter (fun x : K * ReaderAlignment => P (fst x))
             (map (fun v => (key v, v)) values)) =
  filter (fun v => P (key v)) values.
Proof.
  induction values as [ | v values IH ]; simpl; [ reflexivity | ].
  destruct (P (key v)); simpl; now rewrite IH.
Qed.

Lemma StronglySorted_keyed {K : Type} (comp : K -> K -> bool)
  (key : ReaderAlignment -> K) (values : list ReaderAlignment) :
  StronglySorted (fun x y => comp (key y) (key x) = false) values ->
  StronglySorted (fun x y : K * ReaderAlignment => comp (fst y) (fst x) = false)
    (map (fun v => (key v, v)) values).
Proof.
  induction 1 as [ | v values Hs IH Hv ]; simpl; constructor; auto.
  rewrite Forall_forall in *. intros y Hy.
  apply in_map_iff in Hy. destruct Hy as (w & <- & Hw). simpl. auto.
Qed.

(** The inserts of the two sorted mergers as [insert_all]. *)
Lemma Position_add_all_insert_all (values : list ReaderAlignment) :
  forall m : state PositionMerger,
    add_all PositionMerger values m =
    insert_all SortLessThanPosition (map (fun v => (position_key v, v)) values) m.
Proof.
  induction values as [ | v values IH ]; intros m; simpl; [ reflexivity | ].
  apply IH.
Qed.

Lemma ReadName_add_all_insert_all
  (BuildCharData : BamAlignment -> bool * BamAlignment)
  (values : list ReaderAlignment) :
  forall m : state (ReadNameMerger BuildCharData),
    add_all (ReadNameMerger BuildCharData) values m =
    insert_all ReadNameMultiMerger.Compare
      (map (fun v => (name_key v, v)) (materialized BuildCharData values)) m.
Proof.
  induction values as [ | v values IH ]; intros m; [ reflexivity | ].
  change (add_all (ReadNameMerger BuildCharData) (v :: values) m)
    with (add_all (ReadNameMerger BuildCharData) values
            (ReadNameMultiMerger.Add BuildCharData v m)).
  rewrite IH. unfold ReadNameMultiMerger.Add, materialized. simpl.
  destruct (BuildCharData (snd v)) as [[ | ] al]; reflexivity.
Qed.

Lemma equivalent_keys_unmapped (key : Z * Z) :
  equivalent_keys SortLessThanPosition (-1, 0)%Z key = (fst key =? -1)%Z.
Proof.
  destruct key as [r p]. unfold equivalent_keys. simpl.
  destruct (Z.eqb_spec r (-1)) as [-> | Hr]; [ reflexivity | ].
  unfold SortLessThanPosition. simpl.
  destruct (Z.eqb_spec r (-1)); [ contradiction | reflexivity ].
Qed.

Lemma equivalent_keys_string (a b : string) :
  equivalent_keys ReadNameMultiMerger.Compare a b = String.eqb b a.
Proof.
  unfold equivalent_keys, ReadNameMultiMerger.Compare.
  destruct (String.eqb_spec b a) as [-> | Hne].
  - unfold String.ltb. now rewrite string_compare_refl.
  - destruct (String.ltb a b) eqn:H1; [ reflexivity | ].
    destruct (String.ltb b a) eqn:H2; [ reflexivity | ].
    exfalso. apply Hne. symmetry. now apply string_ltb_incomparable.
Qed.

Lemma materialized_filter (BuildCharData : BamAlignment -> bool * BamAlignment)
  (values : list ReaderAlignment) :
  materialized BuildCharData
    (filter (fun v => fst (BuildCharData (snd v))) values) =
  materialized BuildCharData values.
Proof.
  induction values as [ | v values IH ]; [ reflexivity | ].
  simpl. destruct (BuildCharData (snd v)) as [[ | ] al] eqn:Hv; simpl.
  - rewrite Hv. simpl. now rewrite IH.
  - exact IH.
Qed.

(** X1. Position order: [Add] into a container in key order puts the new
    element after every element whose key is not greater than its own and
    before every element whose key is greater, and moves no other element. *)
Theorem X1_Position_Add_upper_bound (value : ReaderAlignment)
  (m : state PositionMerger)
  (Hm : well_keyed SortLessThanPosition position_key m) :
  exists before after,
    m = before ++ after /\
    Add PositionMerger value m = before ++ (position_key value, value) :: after /\
    Forall (fun x => SortLessThanPosition (position_key value)
                       (position_key (snd x)) = false) before /\
    Forall (fun y => SortLessThanPosition (position_key value)
                       (position_key (snd y)) = true) after.
Proof.
  destruct Hm as [Ho Hk].
  destruct (insert_place (position_key value, value) Ho)
    as (before & after & Hm & Hins & Hb & Ha).
  exists before, after. split; [ exact Hm | ]. split; [ exact Hins | ].
  rewrite Hm in Hk. apply Forall_app in Hk. destruct Hk as [Hkb Hka].
  rewrite Forall_forall in Hkb, Hka, Hb, Ha.
  split; apply Forall_forall; intros x Hx.
  - rewrite <- (Hkb x Hx). exact (Hb x Hx).
  - rewrite <- (Hka x Hx). exact (Ha x Hx).
Qed.

Lemma X1_witness :
  let a := (None, mkBamAlignment 0 10 "a") in
  let b := (None, mkBamAlignment 0 20 "b") in
  let c := (None, mkBamAlignment (-1) 0 "c") in
  let m := add_all PositionMerger [c; b; a] (Create PositionMerger) in
  exists before after,
    m = before ++ after /\
    Add PositionMerger (None, mkBamAlignment 0 20 "d") m =
      before ++ ((0, 20)%Z, (None, mkBamAlignment 0 20 "d")) :: after /\
    Forall (fun x => SortLessThanPosition (0, 20)%Z (position_key (snd x)) = false)
      before /\
    Forall (fun y => SortLessThanPosition (0, 20)%Z (position_key (snd y)) = true)
      after.
Proof.
  intros a b c m.
  exact (@X1_Position_Add_upper_bound (None, mkBamAlignment 0 20 "d") m
           (@add_all_invariant BuildCharData_ready PositionOrder [c; b; a] []
              (well_keyed_nil SortLessThanPosition position_key))).
Defined.

(** X2. Position order: the entries whose keys are equivalent (neither
    ordered before the other) are taken in the order of their insertion; the
    entries with RefID -1, which are all equivalent, are. *)
Theorem X2_position_order_drain_stable :
  forall (values : list ReaderAlignment) (k : Z * Z),
    let taken := fst (drain_all PositionMerger
                        (add_all PositionMerger values (Create PositionMerger))) in
    filter (fun v => equivalent_keys SortLessThanPosition k (position_key v)) taken =
    filter (fun v => equivalent_keys SortLessThanPosition k (position_key v)) values /\
    filter (fun v => (RefID (snd v) =? -1)%Z) taken =
    filter (fun v => (RefID (snd v) =? -1)%Z) values.
Proof.
  intros values k taken.
  assert (Hany : forall k',
    filter (fun v => equivalent_keys SortLessThanPosition k' (position_key v)) taken =
    filter (fun v => equivalent_keys SortLessThanPosition k' (position_key v)) values).
  { intros k'.
    set (m := add_all PositionMerger values (Create PositionMerger)).
    assert (Htaken : taken = map snd m)
      by exact (proj1 (drain_all_buffered BuildCharData_ready PositionOrder m)).
    assert (Hinv : well_keyed SortLessThanPosition position_key m).
    { apply (@add_all_invariant BuildCharData_ready PositionOrder).
      apply well_keyed_nil. }
    rewrite Htaken.
    transitivity
      (map snd (filter (fun x : (Z * Z) * ReaderAlignment =>
                          equivalent_keys SortLessThanPosition k' (fst x)) m)).
    { symmetry.
      exact (filter_by_key position_key
               (equivalent_keys SortLessThanPosition k') (proj2 Hinv)). }
    transitivity
      (map snd (filter (fun x : (Z * Z) * ReaderAlignment =>
                          equivalent_keys SortLessThanPosition k' (fst x))
                  (map (fun v => (position_key v, v)) values))).
    { f_equal. subst m.
      etransitivity;
        [ exact (f_equal _ (Position_add_all_insert_all values [])) | ].
      exact (insert_all_filter_class (comp := SortLessThanPosition) k'
               (map (fun v => (position_key v, v)) values)
               (SSorted_nil _)). }
    apply filter_keyed. }
  split; [ apply Hany | ].
  rewrite (filter_ext (fun v => (RefID (snd v) =? -1)%Z)
             (fun v => equivalent_keys SortLessThanPosition (-1, 0)%Z (position_key v))).
  - rewrite Hany. apply filter_ext. intros v.
    now rewrite equivalent_keys_unmapped.
  - intros v. now rewrite equivalent_keys_unmapped.
Qed.

(** X9. Position order: entries inserted in key order (none with a key less
    than the key of an entry inserted before it) are taken in the order of
    their insertion, equal keys included. *)
Theorem X9_position_order_sorted_input (values : list ReaderAlignment)
  (Hsorted : StronglySorted
     (fun x y => SortLessThanPosition (position_key y) (position_key x) = false)
     values) :
  fst (drain_all PositionMerger
         (add_all PositionMerger values (Create PositionMerger))) = values.
Proof.
  set (m := add_all PositionMerger values (Create PositionMerger)).
  transitivity (map snd m).
  - exact (proj1 (drain_all_buffered BuildCharData_ready PositionOrder m)).
  - subst m.
    transitivity (map snd (map (fun v => (position_key v, v)) values)).
    + f_equal.
      etransitivity; [ exact (Position_add_all_insert_all values []) | ].
      exact (@insert_all_sorted_input _ _ SortLessThanPosition _ []
               (StronglySorted_keyed SortLessThanPosition position_key Hsorted)).
    + rewrite map_map. apply map_id.
Qed.

Lemma X9_witness :
  let values := [ (None, mkBamAlignment 0 10 "a"); (None, mkBamAlignment 0 10 "b");
                  (None, mkBamAlignment 1 5 "c"); (None, mkBamAlignment (-1) 0 "d");
                  (None, mkBamAlignment (-1) 7 "e") ] in
  fst (drain_all PositionMerger
         (add_all PositionMerger values (Create PositionMerger))) = values.
Proof.
  intros values. apply X9_position_order_sorted_input.
  repeat (apply SSorted_cons; [ | repeat (apply Forall_cons; [ reflexivity | ]);
                                  apply Forall_nil ]).
  apply SSorted_nil.
Defined.

(** X3. Name order, whatever [BuildCharData] returns: after any inserts into
    a new merger, the size is the number of inserts whose [BuildCharData]
    returned true; taking entries until the merger is empty returns exactly
    those entries, each once, in name order; and the merger is the one the
    same inserts without the failing ones build. *)
Theorem X3_name_order_failed_inserts_absent
  (BuildCharData : BamAlignment -> bool * BamAlignment)
  (values : list ReaderAlignment) :
  let I := ReadNameMerger BuildCharData in
  let m := add_all I values (Create I) in
  let taken := fst (drain_all I m) in
  Size I m = Z.of_nat (length (materialized BuildCharData values)) /\
  IsEmpty I (snd (drain_all I m)) = true /\
  Permutation taken (materialized BuildCharData values) /\
  StronglySorted (fun x y => String.ltb (Name (snd y)) (Name (snd x)) = false) taken /\
  m = add_all I (filter (fun v => fst (BuildCharData (snd v))) values) (Create I).
Proof.
  intros I m taken.
  destruct (drain_all_buffered BuildCharData NameOrder m) as [Htaken Hempty].
  change (taken = map snd m) in Htaken.
  assert (Hinv : well_keyed ReadNameMultiMerger.Compare name_key m).
  { apply (@add_all_invariant BuildCharData NameOrder). apply well_keyed_nil. }
  assert (Hperm : Permutation (map snd m) (materialized BuildCharData values))
    by exact (@ReadName_add_all_perm BuildCharData values []).
  split; [ | split; [ exact Hempty | split; [ | split ] ] ].
  - transitivity (Z.of_nat (length (map snd m))).
    + unfold I. simpl. unfold ReadNameMultiMerger.Size, StdMultimap.size.
      now rewrite length_map.
    + f_equal. exact (Permutation_length Hperm).
  - rewrite Htaken. exact Hperm.
  - rewrite Htaken.
    exact (well_keyed_values (comp := ReadNameMultiMerger.Compare) Hinv).
  - unfold m, I. rewrite !ReadName_add_all_insert_all.
    now rewrite materialized_filter.
Qed.

(** X4. Name order: entries of the same name are taken in the order of
    their insertion. *)
Theorem X4_name_order_drain_stable
  (BuildCharData : BamAlignment -> bool * BamAlignment)
  (values : list ReaderAlignment) (name : string) :
  let I := ReadNameMerger BuildCharData in
  filter (fun v => String.eqb (Name (snd v)) name)
    (fst (drain_all I (add_all I values (Create I)))) =
  filter (fun v => String.eqb (Name (snd v)) name)
    (materialized BuildCharData values).
Proof.
  intros I.
  set (m := add_all I values (Create I)).
  assert (Htaken : fst (drain_all I m) = map snd m)
    by exact (proj1 (drain_all_buffered BuildCharData NameOrder m)).
  assert (Hinv : well_keyed ReadNameMultiMerger.Compare name_key m).
  { apply (@add_all_invariant BuildCharData NameOrder). apply well_keyed_nil. }
  rewrite Htaken.
  rewrite (filter_ext (fun v : ReaderAlignment => String.eqb (Name (snd v)) name)
             (fun v => equivalent_keys ReadNameMultiMerger.Compare name (name_key v)))
    by (intros v; now rewrite equivalent_keys_string).
  rewrite (filter_ext (fun v : ReaderAlignment => String.eqb (Name (snd v)) name)
             (fun v => equivalent_keys ReadNameMultiMerger.Compare name (name_key v))
             (fun v => eq_sym (equivalent_keys_string name (name_key v)))).
  transitivity
    (map snd (filter (fun x : string * ReaderAlignment =>
                        equivalent_keys ReadNameMultiMerger.Compare name (fst x)) m)).
  { symmetry.
    exact (filter_by_key name_key
             (equivalent_keys ReadNameMultiMerger.Compare name) (proj2 Hinv)). }
  transitivity
    (map snd (filter (fun x : string * ReaderAlignment =>
                        equivalent_keys ReadNameMultiMerger.Compare name (fst x))
                (map (fun v => (name_key v, v))
                   (materialized BuildCharData values)))).
  { f_equal. subst m.
    etransitivity;
      [ exact (f_equal _ (@ReadName_add_all_insert_all BuildCharData values [])) | ].
    exact (insert_all_filter_class (comp := ReadNameMultiMerger.Compare) name
             (map (fun v => (name_key v, v)) (materialized BuildCharData values))
             (SSorted_nil _)). }
  apply filter_keyed.
Qed.

(** ** Runs of the sorted mergers fed in order *)

Lemma Position_call_keyed (c : Call) (m : state PositionMerger) :
  call PositionMerger c m =
  keyed_call SortLessThanPosition position_key Position_files c m.
Proof. destruct c; try reflexivity; destruct m; reflexivity. Qed.

Lemma ReadName_call_keyed (BuildCharData : BamAlignment -> bool * BamAlignment)
  (c : Call) (m : state (ReadNameMerger BuildCharData)) :
  call (ReadNameMerger BuildCharData) c m =
  keyed_call ReadNameMultiMerger.Compare name_key (ReadName_files BuildCharData) c m.
Proof.
  destruct c; try reflexivity; try (destruct m; reflexivity).
  simpl. unfold ReadNameMultiMerger.Add, ReadName_files.
  destruct (BuildCharData (snd value)) as [[ | ] al]; reflexivity.
Qed.

Lemma Position_run_keyed (cs : list Call) :
  forall m : state PositionMerger,
    run PositionMerger cs m =
    keyed_run SortLessThanPosition position_key Position_files cs m.
Proof.
  induction cs as [ | c cs IH ]; intros m; [ reflexivity | ].
  cbn [run keyed_run]. rewrite Position_call_keyed.
  destruct (keyed_call _ _ _ c m) as [[r m'] | ]; [ | reflexivity ].
  now rewrite IH.
Qed.

Lemma ReadName_run_keyed (BuildCharData : BamAlignment -> bool * BamAlignment)
  (cs : list Call) :
  forall m : state (ReadNameMerger BuildCharData),
    run (ReadNameMerger BuildCharData) cs m =
    keyed_run ReadNameMultiMerger.Compare name_key (ReadName_files BuildCharData) cs m.
Proof.
  induction cs as [ | c cs IH ]; intros m; [ reflexivity | ].
  cbn [run keyed_run]. rewrite ReadName_call_keyed.
  destruct (keyed_call _ _ _ c m) as [[r m'] | ]; [ | reflexivity ].
  now rewrite IH.
Qed.

Section KeyedRun.
Context {K : Type}.
Variable comp : K -> K -> bool.
Context `{!StrictWeakOrder comp}.
Variable key : ReaderAlignment -> K.
Variable files : ReaderAlignment -> option ReaderAlignment.

Lemma keyed_call_not_before (last : option K) (c : Call)
  (m m' : list (K * ReaderAlignment)) (r : Returned) :
  well_keyed comp key m -> not_before comp last m ->
  keyed_call comp key files c m = Some (r, m') ->
  fed_in_order comp key files last [c] [r] = true ->
  well_keyed comp key m' /\
  match c, m with
  | CallTakeFirst, first :: _ =>
      r = RetEntry (snd first) /\ not_before comp (Some (key (snd first))) m' /\
      match last with
      | Some k => comp (key (snd first)) k = false
      | None => True
      end
  | _, _ => not_before comp last m'
  end.
Proof.
  intros Hwk Hnb Hcall Hfed. destruct c; simpl in Hcall.
  - inversion Hcall; subst. simpl in Hfed. rewrite andb_true_r in Hfed.
    destruct (files value) as [filed | ]; [ | split; assumption ].
    split; [ now apply well_keyed_insert | ].
    destruct last as [k | ]; simpl in *; [ | exact I ].
    rewrite Forall_forall in *. intros x Hx.
    apply insert_In in Hx. destruct Hx as [-> | Hx]; [ | auto ].
    simpl. now apply negb_true_iff.
  - inversion Hcall; subst. split; [ apply well_keyed_nil | ].
    destruct last; simpl; [ constructor | exact I ].
  - destruct m; inversion Hcall; subst. split; assumption.
  - inversion Hcall; subst. split; assumption.
  - inversion Hcall; subst. destruct reader as [rd | ]; [ | split; assumption ].
    split; [ now apply well_keyed_erase | ].
    destruct last; simpl in *; [ | exact I ].
    now apply erase_first_match_Forall.
  - inversion Hcall; subst. split; assumption.
  - destruct m as [ | first rest ]; inversion Hcall; subst.
    split; [ eapply well_keyed_tail; eassumption | ].
    destruct Hwk as [Ho Hk]. apply StronglySorted_inv in Ho.
    inversion Hk as [ | ? ? Hkf Hkr ]; subst.
    split; [ reflexivity | ]. split.
    + simpl. rewrite <- Hkf. tauto.
    + destruct last as [k | ]; [ | exact I ].
      simpl in Hnb. inversion Hnb; subst. now rewrite <- Hkf.
Qed.

Lemma keyed_run_taken_sorted (cs : list Call) :
  forall (last : option K) (m m' : list (K * ReaderAlignment)) (rs : list Returned),
    well_keyed comp key m -> not_before comp last m ->
    keyed_run comp key files cs m = Some (rs, m') ->
    fed_in_order comp key files last cs rs = true ->
    StronglySorted (fun x y => comp (key y) (key x) = false) (taken_entries cs rs) /\
    match last with
    | Some k => Forall (fun v => comp (key v) k = false) (taken_entries cs rs)
    | None => True
    end.
Proof.
  induction cs as [ | c cs IH ]; intros last m m' rs Hwk Hnb Hrun Hfed.
  - simpl. split; [ apply SSorted_nil | ]. destruct last; [ apply Forall_nil | exact I ].
  - cbn [keyed_run] in Hrun.
    destruct (keyed_call comp key files c m) as [[r m1] | ] eqn:Hcall; [ | discriminate ].
    destruct (keyed_run comp key files cs m1) as [[rs1 m2] | ] eqn:Hr; [ | discriminate ].
    inversion Hrun; subst. clear Hrun.
    assert (Hfed1 : fed_in_order comp key files last [c] [r] = true).
    { destruct c; simpl in *; try reflexivity.
      - apply andb_prop in Hfed. rewrite andb_true_r. tauto.
      - destruct r; reflexivity. }
    destruct (keyed_call_not_before last c Hwk Hnb Hcall Hfed1) as [Hwk1 Hstep].
    destruct c; try (destruct m; fail);
      try (simpl in Hfed;
           try (apply andb_prop in Hfed; destruct Hfed as [_ Hfed]);
           assert (Hnb1 : not_before comp last m1)
             by (destruct m; exact Hstep);
           exact (IH last m1 m' rs1 Hwk1 Hnb1 Hr Hfed)).
    destruct m as [ | first rest ]; [ discriminate Hcall | ].
    destruct Hstep as (-> & Hnb1 & Hlast).
    simpl in Hfed.
    destruct (IH (Some (key (snd first))) m1 m' rs1 Hwk1 Hnb1 Hr Hfed) as [Hs Hall].
    simpl. split.
    + apply SSorted_cons; assumption.
    + destruct last as [k | ]; [ | exact I ].
      apply Forall_cons; [ exact Hlast | ].
      eapply Forall_impl; [ | exact Hall ].
      intros v Hv. simpl in Hv.
      exact (@swo_le_trans K comp _ k (key (snd first)) (key v) Hlast Hv).
Qed.
End KeyedRun.

(** X5. Position order, any calls on a new merger (inserts, removals,
    clears and queries among them): when no insert has a key ordered before
    the key of the entry [TakeFirst] returned last, the entries the
    [TakeFirst] calls return are in key order, none less than one returned
    before it.  This is the merge of sorted sources: a driver that refills
    from the source of the entry it took feeds the merger in order. *)
Theorem X5_position_order_merge_sorted
  (cs : list Call) (rs : list Returned) (m : state PositionMerger)
  (Hrun : run PositionMerger cs (Create PositionMerger) = Some (rs, m))
  (Hfed : fed_in_order SortLessThanPosition position_key Position_files
            None cs rs = true) :
  StronglySorted
    (fun x y => SortLessThanPosition (position_key y) (position_key x) = false)
    (taken_entries cs rs).
Proof.
  rewrite Position_run_keyed in Hrun.
  exact (proj1 (@keyed_run_taken_sorted _ SortLessThanPosition _ position_key
                  Position_files cs None [] m rs
                  (well_keyed_nil SortLessThanPosition position_key) I Hrun Hfed)).
Qed.

Lemma X5_witness :
  let s1 := Some (mkBamReader 1 "one.bam") in
  let s2 := Some (mkBamReader 2 "two.bam") in
  let s3 := Some (mkBamReader 3 "three.bam") in
  StronglySorted
    (fun x y => SortLessThanPosition (position_key y) (position_key x) = false)
    [ (s1, mkBamAlignment 0 10 "r"); (s2, mkBamAlignment 0 20 "r");
      (s1, mkBamAlignment 0 50 "r"); (s3, mkBamAlignment (-1) 5 "r") ].
Proof.
  intros s1 s2 s3.
  exact (@X5_position_order_merge_sorted
           [ CallAdd (s1, mkBamAlignment 0 10 "r");
             CallAdd (s2, mkBamAlignment 0 20 "r");
             CallAdd (s3, mkBamAlignment (-1) 5 "r");
             CallTakeFirst; CallAdd (s1, mkBamAlignment 0 50 "r");
             CallSize; CallTakeFirst; CallTakeFirst; CallTakeFirst ]
           [ RetVoid; RetVoid; RetVoid;
             RetEntry (s1, mkBamAlignment 0 10 "r"); RetVoid;
             RetInt 3; RetEntry (s2, mkBamAlignment 0 20 "r");
             RetEntry (s1, mkBamAlignment 0 50 "r");
             RetEntry (s3, mkBamAlignment (-1) 5 "r") ]
           [] eq_refl eq_refl).
Defined.

(** X6. Name order, any calls on a new merger: when no insert buffers an
    entry whose name is less than the name of the entry [TakeFirst] returned
    last (an insert whose [BuildCharData] fails buffers nothing and is free),
    the entries the [TakeFirst] calls return are in name order. *)
Theorem X6_name_order_merge_sorted
  (BuildCharData : BamAlignment -> bool * BamAlignment)
  (cs : list Call) (rs : list Returned) (m : state (ReadNameMerger BuildCharData))
  (Hrun : run (ReadNameMerger BuildCharData) cs
            (Create (ReadNameMerger BuildCharData)) = Some (rs, m))
  (Hfed : fed_in_order ReadNameMultiMerger.Compare name_key
            (ReadName_files BuildCharData) None cs rs = true) :
  StronglySorted (fun x y => String.ltb (Name (snd y)) (Name (snd x)) = false)
    (taken_entries cs rs).
Proof.
  rewrite ReadName_run_keyed in Hrun.
  exact (proj1 (@keyed_run_taken_sorted _ ReadNameMultiMerger.Compare _ name_key
                  (ReadName_files BuildCharData) cs None [] m rs
                  (well_keyed_nil ReadNameMultiMerger.Compare name_key)
                  I Hrun Hfed)).
Qed.

Lemma X6_witness :
  let s1 := Some (mkBamReader 1 "one.bam") in
  let s2 := Some (mkBamReader 2 "two.bam") in
  StronglySorted (fun x y => String.ltb (Name (snd y)) (Name (snd x)) = false)
    [ (s1, mkBamAlignment 0 0 "read1"); (s2, mkBamAlignment 0 0 "read2");
      (s1, mkBamAlignment 0 0 "read3") ].
Proof.
  intros s1 s2.
  exact (@X6_name_order_merge_sorted BuildCharData_nonempty
           [ CallAdd (s1, mkBamAlignment 0 0 "read1");
             CallAdd (s2, mkBamAlignment 0 0 "read2");
             CallTakeFirst; CallAdd (s1, mkBamAlignment 0 0 "read3");
             CallAdd (s2, mkBamAlignment 0 0 EmptyString);
             CallTakeFirst; CallTakeFirst; CallIsEmpty ]
           [ RetVoid; RetVoid;
             RetEntry (s1, mkBamAlignment 0 0 "read1"); RetVoid; RetVoid;
             RetEntry (s2, mkBamAlignment 0 0 "read2");
             RetEntry (s1, mkBamAlignment 0 0 "read3"); RetBool true ]
           [] eq_refl eq_refl).
Defined.

(** ** [UnsortedMultiMerger::Clear], called again *)

Lemma firstn_half_nonempty {A : Type} (l : list A) :
  2 <= length l -> exists x rest, firstn (length l / 2) l = x :: rest /\ hd_error l = Some x.
Proof.
  intros Hl. destruct l as [ | x l ]; [ simpl in Hl; lia | ].
  destruct (length (x :: l) / 2) as [ | j ] eqn:Hj.
  - apply Nat.div_small_iff in Hj; [ lia | discriminate ].
  - exists x, (firstn j l). split; reflexivity.
Qed.

(** X7. Insertion order: [Clear] leaves the merger empty exactly when it
    held at most one entry; with two entries or more it leaves the merger
    non-empty with the same first entry; [k] calls of [Clear] leave the
    oldest [n / 2^k] of [n] entries. *)
Theorem X7_unsorted_Clear_halves (m : state UnsortedMerger) :
  (IsEmpty UnsortedMerger (Clear UnsortedMerger m) = true <-> length m <= 1) /\
  (2 <= length m ->
   First UnsortedMerger (Clear UnsortedMerger m) = First UnsortedMerger m) /\
  (forall k : nat,
     Nat.iter k (Clear UnsortedMerger) m = firstn (length m / 2 ^ k) m).
Proof.
  cbn [Clear IsEmpty First UnsortedMerger].
  split; [ | split ].
  - rewrite Unsorted_Clear_spec.
    destruct (Nat.le_gt_cases (length m) 1) as [Hle | Hgt].
    + replace (length m / 2) with 0
        by (symmetry; apply Nat.div_small_iff; [ discriminate | lia ]).
      rewrite firstn_0. simpl. tauto.
    + destruct (firstn_half_nonempty m Hgt) as (x & rest & -> & _).
      simpl. split; [ discriminate | lia ].
  - intros Hl. rewrite Unsorted_Clear_spec.
    destruct (firstn_half_nonempty m Hl) as (x & rest & -> & Hx).
    destruct m; simpl in *; [ discriminate | congruence ].
  - intros k. induction k as [ | k IH ].
    + rewrite Nat.pow_0_r, Nat.div_1_r. symmetry. apply firstn_all.
    + cbn [Nat.iter nat_rect]. unfold Nat.iter in IH. rewrite IH.
      rewrite Unsorted_Clear_spec, length_firstn, firstn_firstn.
      f_equal.
      assert (Hle : length m / 2 ^ k <= length m).
      { apply Nat.Div0.div_le_upper_bound.
        assert (0 < 2 ^ k) by (apply Nat.neq_0_lt_0, Nat.pow_nonzero; discriminate).
        nia. }
      rewrite (Nat.min_l _ _ Hle).
      rewrite Nat.Div0.div_div, Nat.pow_succ_r', (Nat.mul_comm 2).
      apply Nat.min_l. rewrite <- Nat.Div0.div_div.
      apply Nat.Div0.div_le_upper_bound. lia.
Qed.

(** ** [Remove], called again *)

Section RemoveAgain.
Context {E : Type}.
Variable entryReader : E -> option BamReader.
Variable f : string.

Local Abbreviation erase := (erase_first_match entryReader f).
Local Abbreviation test := (matches entryReader f).

Lemma filter_partition_length (l : list E) :
  length l = length (filter test l) + length (filter (fun e => negb (test e)) l).
Proof.
  induction l as [ | x l IH ]; simpl; [ reflexivity | ].
  destruct (test x); simpl; lia.
Qed.

Lemma existsb_filter_length (l : list E) :
  existsb test l = negb (length (filter test l) =? 0).
Proof.
  induction l as [ | x l IH ]; simpl; [ reflexivity | ].
  destruct (test x); simpl; auto.
Qed.

Lemma erase_keeps_others (l : list E) :
  filter (fun e => negb (test e)) (erase l) = filter (fun e => negb (test e)) l.
Proof.
  destruct (existsb test l) eqn:H.
  - destruct (erase_first_match_some _ _ _ H) as (b & x & a & -> & Hx & _ & ->).
    rewrite !filter_app. simpl. now rewrite Hx.
  - now rewrite erase_first_match_none.
Qed.

Lemma erase_count (l : list E) :
  length (filter test (erase l)) = pred (length (filter test l)).
Proof.
  destruct (existsb test l) eqn:H.
  - destruct (erase_first_match_some _ _ _ H) as (b & x & a & -> & Hx & _ & ->).
    rewrite !filter_app, !length_app. simpl. rewrite Hx. simpl. lia.
  - rewrite erase_first_match_none by assumption.
    rewrite existsb_filter_length in H. apply negb_false_iff, Nat.eqb_eq in H.
    now rewrite H.
Qed.

Lemma no_match_all_others (l : list E) :
  length (filter test l) = 0 -> filter (fun e => negb (test e)) l = l.
Proof.
  induction l as [ | x l IH ]; simpl; [ reflexivity | ].
  destruct (test x); simpl; [ discriminate | ]. intros H. now rewrite IH.
Qed.

Lemma others_no_match (l : list E) :
  length (filter test (filter (fun e => negb (test e)) l)) = 0.
Proof.
  induction l as [ | x l IH ]; simpl; [ reflexivity | ].
  destruct (test x) eqn:Hx; simpl; [ exact IH | ]. now rewrite Hx.
Qed.

Lemma erase_first_match_is_least (R : E -> E -> Prop) (l : list E) :
  StronglySorted R l -> (forall x, R x x) ->
  existsb test l = true ->
  exists erased,
    test erased = true /\
    Permutation l (erased :: erase l) /\
    forall x, In x l -> test x = true -> R erased x.
Proof.
  intros Hs Hrefl H.
  destruct (erase_first_match_some _ _ _ H) as (b & e & a & -> & He & Hb & ->).
  exists e. split; [ exact He | ]. split.
  - symmetry. apply Permutation_middle.
  - intros x Hx Htx. apply in_app_or in Hx. destruct Hx as [Hx | [<- | Hx]].
    + exfalso. assert (Hex : existsb test b = true)
        by (apply existsb_exists; exists x; auto). congruence.
    + apply Hrefl.
    + apply StronglySorted_middle in Hs. rewrite Forall_forall in Hs. auto.
Qed.
End RemoveAgain.

Lemma Remove_no_match (BuildCharData : BamAlignment -> bool * BamAlignment)
  (v : Variant) (r : BamReader) (m : state (merger BuildCharData v)) :
  removal_succeeds (merger BuildCharData v) (Some r) m = false ->
  Remove (merger BuildCharData v) (Some r) m = m.
Proof.
  intros Hnone.
  destruct v; simpl in *; apply erase_first_match_none;
    first [ exact Hnone
          | exact (eq_trans (existsb_matches_map_snd _ m) Hnone) ].
Qed.

Lemma Remove_iter_buffered (BuildCharData : BamAlignment -> bool * BamAlignment)
  (v : Variant) (r : BamReader) (k : nat) :
  forall m : state (merger BuildCharData v),
    buffered (merger BuildCharData v)
      (Nat.iter k (Remove (merger BuildCharData v) (Some r)) m) =
    Nat.iter k (erase_first_match (fun e : ReaderAlignment => fst e) (GetFilename r))
      (buffered (merger BuildCharData v) m).
Proof.
  induction k as [ | k IH ]; intros m; [ reflexivity | ].
  cbn [Nat.iter nat_rect]. unfold Nat.iter in IH.
  rewrite Remove_buffered. now rewrite IH.
Qed.

Lemma erase_iter (f : string) (k : nat) :
  forall l : list ReaderAlignment,
    let erase := erase_first_match (fun e : ReaderAlignment => fst e) f in
    let test := matches (fun e : ReaderAlignment => fst e) f in
    length (filter test (Nat.iter k erase l)) = length (filter test l) - k /\
    filter (fun e => negb (test e)) (Nat.iter k erase l) =
    filter (fun e => negb (test e)) l.
Proof.
  induction k as [ | k IH ]; intros l erase test.
  - simpl. split; [ lia | reflexivity ].
  - cbn [Nat.iter nat_rect]. destruct (IH l) as [IH1 IH2].
    unfold Nat.iter in IH1, IH2. subst erase test.
    rewrite erase_count, erase_keeps_others, IH1, IH2. split; [ lia | reflexivity ].
Qed.

(** X8. Every variant, [Remove] called again and again with a reader of the
    same file: each call erases one entry of that file while there is one, so
    after [k] calls the size is down by [k], or by the number [n] of such
    entries if [k] is more; after [n] calls the entries of other files, and
    those with a null reader, are all that is left, in their order; and
    further calls change nothing. *)
Theorem X8_Remove_repeated
  (BuildCharData : BamAlignment -> bool * BamAlignment) (v : Variant)
  (r : BamReader) (m : state (merger BuildCharData v)) :
  let I := merger BuildCharData v in
  let n := count_matches (GetFilename r) (buffered I m) in
  (forall k : nat,
     Size I (Nat.iter k (Remove I (Some r)) m) = (Size I m - Z.of_nat (min k n))%Z) /\
  buffered I (Nat.iter n (Remove I (Some r)) m) =
    filter (fun e => negb (matches (fun e : ReaderAlignment => fst e) (GetFilename r) e))
      (buffered I m) /\
  (forall k : nat, n <= k ->
     Nat.iter k (Remove I (Some r)) m = Nat.iter n (Remove I (Some r)) m).
Proof.
  intros I n. subst I.
  assert (Hn : forall k,
    length (buffered (merger BuildCharData v)
              (Nat.iter k (Remove (merger BuildCharData v) (Some r)) m)) =
    length (buffered (merger BuildCharData v) m) - min k n).
  { intros k. rewrite Remove_iter_buffered.
    destruct (erase_iter (GetFilename r) k (buffered (merger BuildCharData v) m))
      as [H1 H2].
    rewrite (filter_partition_length (fun e : ReaderAlignment => fst e) (GetFilename r)
               (Nat.iter k _ _)).
    rewrite H1, H2.
    rewrite (filter_partition_length (fun e : ReaderAlignment => fst e) (GetFilename r)
               (buffered (merger BuildCharData v) m)).
    unfold n, count_matches. lia. }
  assert (Hlast : buffered (merger BuildCharData v)
            (Nat.iter n (Remove (merger BuildCharData v) (Some r)) m) =
          filter (fun e => negb (matches (fun e : ReaderAlignment => fst e)
                                   (GetFilename r) e))
            (buffered (merger BuildCharData v) m)).
  { rewrite Remove_iter_buffered.
    destruct (erase_iter (GetFilename r) n (buffered (merger BuildCharData v) m))
      as [H1 H2].
    rewrite <- H2. symmetry. apply no_match_all_others.
    rewrite H1. unfold n, count_matches. lia. }
  split; [ | split; [ exact Hlast | ] ].
  - intros k. rewrite !Size_length, Hn.
    assert (min k n <= length (buffered (merger BuildCharData v) m)).
    { rewrite (filter_partition_length (fun e : ReaderAlignment => fst e)
                 (GetFilename r) (buffered (merger BuildCharData v) m)).
      unfold n, count_matches. lia. }
    lia.
  - intros k Hk. induction Hk as [ | k Hk IH ]; [ reflexivity | ].
    cbn [Nat.iter nat_rect]. unfold Nat.iter in IH. rewrite IH.
    apply Remove_no_match. unfold removal_succeeds.
    fold (Nat.iter n (Remove (merger BuildCharData v) (Some r)) m).
    rewrite Hlast, existsb_filter_length.
    apply negb_false_iff, Nat.eqb_eq. apply others_no_match.
Qed.

(** X10. Position order: when several buffered entries come from the file of
    the reader given, [Remove] erases the one of them that sorts first: no
    other entry of that file has a key less than the key of the erased one.
    The insertion order of the entries plays no part. *)
Theorem X10_position_Remove_erases_least_match
  (r : BamReader) (m : state PositionMerger)
  (Hm : well_keyed SortLessThanPosition position_key m)
  (Hmatch : removal_succeeds PositionMerger (Some r) m = true) :
  let same_file := matches (fun e : ReaderAlignment => fst e) (GetFilename r) in
  exists erased : ReaderAlignment,
    same_file erased = true /\
    Permutation (buffered PositionMerger m)
      (erased :: buffered PositionMerger (Remove PositionMerger (Some r) m)) /\
    forall x, In x (buffered PositionMerger m) -> same_file x = true ->
              SortLessThanPosition (position_key x) (position_key erased) = false.
Proof.
  intros same_file.
  pose proof (well_keyed_values (comp := SortLessThanPosition) Hm) as Hs.
  destruct (erase_first_match_is_least (fun e : ReaderAlignment => fst e)
              (GetFilename r) Hs
              (fun x => SortLessThanPosition_irrefl (position_key x)) Hmatch)
    as (erased & He & Hp & Hleast).
  exists erased. split; [ exact He | ]. split; [ | exact Hleast ].
  exact (eq_ind _
           (fun l => Permutation (buffered PositionMerger m) (erased :: l)) Hp _
           (eq_sym (Remove_buffered BuildCharData_ready PositionOrder (Some r) m))).
Qed.

Lemma X10_witness :
  let Y := Some (mkBamReader 2 "y.bam") in
  let late := (Y, mkBamAlignment 3 70 "late") in
  let early := (Y, mkBamAlignment 1 5 "early") in
  let m := add_all PositionMerger [late; early] (Create PositionMerger) in
  exists erased : ReaderAlignment,
    matches (fun e : ReaderAlignment => fst e) "y.bam" erased = true /\
    Permutation (buffered PositionMerger m)
      (erased :: buffered PositionMerger
                   (Remove PositionMerger (Some (mkBamReader 9 "y.bam")) m)) /\
    forall x, In x (buffered PositionMerger m) ->
              matches (fun e : ReaderAlignment => fst e) "y.bam" x = true ->
              SortLessThanPosition (position_key x) (position_key erased) = false.
Proof.
  intros Y late early m.
  exact (@X10_position_Remove_erases_least_match (mkBamReader 9 "y.bam") m
           (@add_all_invariant BuildCharData_ready PositionOrder [late; early] []
              (well_keyed_nil SortLessThanPosition position_key))
           eq_refl).
Defined.
